(** * NCM container decoder ([src/main.py], function [ncmdump])

    A shallow embedding of the decoding core of [ncmdump]: the byte-level
    helpers ([unpad], [struct.unpack('<I', ..)], Python indexing and
    slicing), the key-box scheduling loop, the per-chunk keystream transform
    and the body of the [with open(filepath, 'rb') as f:] block.

    Bytes are integers ([Z]) in [0, 256); a [bytes] or [bytearray] object is
    a [list Z].  Python exceptions are values of [exn]; a computation that
    may raise returns a [Result]. *)

From Stdlib Require Import ZArith Lia.
From stdpp Require Import base tactics option list list_numbers strings gmap.

Local Open Scope Z_scope.

(** ** Exceptions and results *)

Inductive exn : Type :=
  | AssertionError
  | IndexError
  | ValueError
  | StructError
  | Base64Error
  | UnicodeDecodeError
  | JSONDecodeError
  | KeyError
  | TypeError.

Inductive Result (A : Type) : Type :=
  | Ok (a : A)
  | Raise (e : exn).
Arguments Ok {A} a.
Arguments Raise {A} e.

#[global] Instance Result_ret : MRet Result := @Ok.
#[global] Instance Result_bind : MBind Result := λ A B f r,
  match r with
  | Ok a => f a
  | Raise e => Raise e
  end.

(** [for x in xs: s = body(s, x)], stopping at the first exception. *)
Fixpoint for_each {A T : Type} (body : T → A → Result T) (xs : list A) (s : T)
  : Result T :=
  match xs with
  | [] => Ok s
  | x :: xs' => s' ← body s x; for_each body xs' s'
  end.

(** ** Bytes, indexing and slicing *)

Abbreviation bytes := (list Z).

Definition is_byte (b : Z) : Prop := 0 ≤ b < 256.
Definition is_bytes (s : bytes) : Prop := Forall is_byte s.

(** [len(s)] *)
Definition len (s : bytes) : Z := Z.of_nat (length s).

(** Python index normalisation for a sequence of [n] items: [i] in
    [0, n) is itself, [i] in [-n, 0) counts from the end, anything else is
    an [IndexError]. *)
Definition index_of (n i : Z) : Result nat :=
  if bool_decide (0 ≤ i < n) then Ok (Z.to_nat i)
  else if bool_decide (- n ≤ i < 0) then Ok (Z.to_nat (n + i))
  else Raise IndexError.

(** [s[i]] *)
Definition getitem (s : bytes) (i : Z) : Result Z :=
  k ← index_of (len s) i;
  from_option Ok (Raise IndexError) (s !! k).

(** [s[i] = v] on a [bytearray]: the value must be a byte. *)
Definition setitem (s : bytes) (i v : Z) : Result bytes :=
  k ← index_of (len s) i;
  if bool_decide (0 ≤ v < 256) then Ok (<[k:=v]> s) else Raise ValueError.

(** Clamping of one slice bound, as [slice.indices] does for step 1. *)
Definition clamp (n i : Z) : nat :=
  Z.to_nat (Z.min n (Z.max 0 (if bool_decide (i < 0) then n + i else i))).

(** [s[start:stop]] *)
Definition slice {A : Type} (s : list A) (start stop : Z) : list A :=
  let n := Z.of_nat (length s) in
  let a := clamp n start in
  let b := clamp n stop in
  take (b - a)%nat (drop a s).

(** [s[start:]] *)
Definition slice_from {A : Type} (s : list A) (start : Z) : list A :=
  drop (clamp (Z.of_nat (length s)) start) s.

(** [range(n)] and [range(a, b)] *)
Definition range (n : Z) : list Z := seqZ 0 n.
Definition range2 (a b : Z) : list Z := seqZ a (b - a).

(** [struct.unpack('<I', bytes(b))[0]] *)
Definition unpack_I (b : bytes) : Result Z :=
  match b with
  | [b0; b1; b2; b3] => Ok (b0 + 256 * b1 + 65536 * b2 + 16777216 * b3)
  | _ => Raise StructError
  end.

(** [def unpad(s): return s[0:-(s[-1] if isinstance(s[-1], int) else ord(s[-1]))]]
    The argument is always a [bytes] object here, so [s[-1]] is an [int]. *)
Definition unpad (s : bytes) : Result bytes :=
  n ← getitem s (-1);
  Ok (slice s 0 (- n)).

(** ** Key-box scheduling (lines 52-66) *)

Record ks_state : Type := KsState {
  key_box : bytes;
  c : Z;
  last_byte : Z;
  key_offset : Z
}.

(** The state before the loop: [key_box = bytearray(range(256))],
    [c = 0], [last_byte = 0], [key_offset = 0]. *)
Definition ks_init : ks_state :=
  {| key_box := range 256; c := 0; last_byte := 0; key_offset := 0 |}.

(** One iteration of [for i in range(256)]. *)
Definition ks_step (key_data : bytes) (key_length : Z) (st : ks_state) (i : Z)
  : Result ks_state :=
  swap ← getitem (key_box st) i;
  k ← getitem key_data (key_offset st);
  let c' := Z.land (swap + last_byte st + k) 255 in
  let off := key_offset st + 1 in
  let off := if bool_decide (key_length ≤ off) then 0 else off in
  v ← getitem (key_box st) c';
  box1 ← setitem (key_box st) i v;
  box2 ← setitem box1 c' swap;
  Ok {| key_box := box2; c := c'; last_byte := c'; key_offset := off |}.

(** The state after the first [n] iterations of the loop. *)
Definition ks_run (key_data : bytes) (n : Z) : Result ks_state :=
  for_each (ks_step key_data (len key_data)) (range n) ks_init.

(** The key box the loop leaves behind. *)
Definition build_key_box (key_data : bytes) : Result bytes :=
  st ← ks_run key_data 256; Ok (key_box st).

(** [for i in range(0, len(a)): a[i] ^= mask] (lines 46-48 and 70-72) *)
Definition xor_mask (mask : Z) (a : bytes) : Result bytes :=
  for_each (λ a i, x ← getitem a i; setitem a i (Z.lxor x mask))
           (range2 0 (len a)) a.

(** ** The world of one call: file position, cipher work done, output *)

(** Cipher work, in the order it is performed. *)
Inductive event : Type :=
  | XorMask (mask : Z)          (* a blob is unmasked with [mask] *)
  | AesDecrypt (key : bytes)    (* an AES-ECB decryption under [key] *)
  | BoxLookup (index : Z).      (* [key_box[index]] in the payload loop *)

Record world : Type := World {
  fpos : nat;             (* position of [f] *)
  trace : list event;     (* cipher work so far, oldest first *)
  sink : option bytes     (* [None]: [m] not opened; [Some b]: [b] written *)
}.

Definition initial : world := {| fpos := 0; trace := []; sink := None |}.

Definition M (A : Type) : Type := world → Result A * world.

#[global] Instance M_ret : MRet M := λ A a w, (Ok a, w).
#[global] Instance M_bind : MBind M := λ A B f m w,
  match m w with
  | (Ok a, w') => f a w'
  | (Raise e, w') => (Raise e, w')
  end.

Definition lift {A : Type} (r : Result A) : M A := λ w, (r, w).

Definition emit (e : event) : M unit := λ w,
  (Ok tt, {| fpos := fpos w; trace := trace w ++ [e]; sink := sink w |}).

(** [f.read(n)] on the file whose content is [f]. *)
Definition f_read (f : bytes) (n : Z) : M bytes := λ w,
  let r := take (Z.to_nat n) (drop (fpos w) f) in
  (Ok r, {| fpos := fpos w + length r; trace := trace w; sink := sink w |}).

(** [f.seek(k, 1)] *)
Definition f_seek (k : Z) : M unit := λ w,
  (Ok tt, {| fpos := fpos w + Z.to_nat k; trace := trace w; sink := sink w |}).

(** [open(target_filename, 'wb')] *)
Definition m_open : M unit := λ w,
  (Ok tt, {| fpos := fpos w; trace := trace w; sink := Some [] |}).

(** [m.write(chunk)] *)
Definition m_write (chunk : bytes) : M unit := λ w,
  (Ok tt, {| fpos := fpos w; trace := trace w;
             sink := Some (default [] (sink w) ++ chunk) |}).

(** [assert b] *)
Definition assert_ (b : bool) : M unit :=
  lift (if b then Ok tt else Raise AssertionError).

(** The [for] loop again, for bodies that act on the world. *)
Fixpoint for_M {A T : Type} (body : T → A → M T) (xs : list A) (s : T)
  : M T :=
  match xs with
  | [] => mret s
  | x :: xs' => s' ← body s x; for_M body xs' s'
  end.

(** ** The payload transform (lines 91-93) *)

Definition box_lookup (key_box : bytes) (i : Z) : M Z :=
  emit (BoxLookup i);; lift (getitem key_box i).

(** One iteration of [for i in range(1, chunk_length + 1)]:
    [j = i & 0xff] and
    [chunk[i - 1] ^= key_box[(key_box[j] + key_box[(key_box[j] + j) & 0xff]) & 0xff]],
    in Python's order of evaluation. *)
Definition decrypt_byte (key_box : bytes) (chunk : bytes) (i : Z) : M bytes :=
  let j := Z.land i 255 in
  old ← lift (getitem chunk (i - 1));
  a ← box_lookup key_box j;
  a' ← box_lookup key_box j;
  b ← box_lookup key_box (Z.land (a' + j) 255);
  ks ← box_lookup key_box (Z.land (a + b) 255);
  lift (setitem chunk (i - 1) (Z.lxor old ks)).

Definition decrypt_chunk (key_box : bytes) (chunk : bytes) : M bytes :=
  let chunk_length := len chunk in
  for_M (decrypt_byte key_box) (range2 1 (chunk_length + 1)) chunk.

(** [while True: chunk = bytearray(f.read(0x8000)); if not chunk: break; ...;
    m.write(chunk)].  The loop is unbounded in the source; here it takes
    [fuel] iterations at most and [None] says the fuel ran out. *)
Fixpoint dump_loop (fuel : nat) (f : bytes) (key_box : bytes) (w : world)
  : option (Result unit * world) :=
  match fuel with
  | O => None
  | S fuel' =>
    match f_read f 32768 w with
    | (Raise e, w1) => Some (Raise e, w1)
    | (Ok [], w1) => Some (Ok tt, w1)
    | (Ok chunk, w1) =>
      match (chunk' ← decrypt_chunk key_box chunk; m_write chunk') w1 with
      | (Raise e, w2) => Some (Raise e, w2)
      | (Ok _, w2) => dump_loop fuel' f key_box w2
      end
    end
  end.

(** ** Library functions the decoder calls *)

(** A Python [str], as its code points. *)
Abbreviation str := (list Z) (only parsing).

Class Library : Type := {
  (** the value [json.loads] returns *)
  json : Type;
  (** [c = Cipher(algorithms.AES(key), modes.ECB(), ..).decryptor();
      c.update(data) + c.finalize()] *)
  aes_ecb_decrypt : bytes → bytes → Result bytes;
  (** [base64.b64decode(data)] *)
  b64decode : bytes → Result bytes;
  (** [data.decode('utf-8')] *)
  utf8_decode : bytes → Result str;
  (** [json.loads(text)] *)
  json_loads : str → Result json;
  (** [f'{meta_data["format"]}'] *)
  format_of : json → Result str
}.

(** [binascii.a2b_hex('687A4852416D736F356B496E62617857')] *)
Definition core_key : bytes :=
  [0x68; 0x7A; 0x48; 0x52; 0x41; 0x6D; 0x73; 0x6F;
   0x35; 0x6B; 0x49; 0x6E; 0x62; 0x61; 0x78; 0x57].

(** [binascii.a2b_hex('2331346C6A6B5F215C5D2630553C2728')] *)
Definition meta_key : bytes :=
  [0x23; 0x31; 0x34; 0x6C; 0x6A; 0x6B; 0x5F; 0x21;
   0x5C; 0x5D; 0x26; 0x30; 0x55; 0x3C; 0x27; 0x28].

(** The bytes whose [binascii.b2a_hex] is [b'4354454e4644414d']. *)
Definition magic : bytes := [0x43; 0x54; 0x45; 0x4E; 0x46; 0x44; 0x41; 0x4D].

(** Lines 51-66, after the decryption: [unpad(..)[17:]] is the seed key,
    and the scheduling loop makes the key box of it. *)
Definition key_box_of_plain (plain : bytes) : Result bytes :=
  key_data ← unpad plain;
  let key_data := slice_from key_data 17 in
  build_key_box key_data.

Section Decoder.
Context `{Library}.

(** Lines 46-66: from the key blob as read to the key box. *)
Definition key_box_of (key_data : bytes) : M bytes :=
  emit (XorMask 0x64);;
  key_data ← lift (xor_mask 0x64 key_data);
  emit (AesDecrypt core_key);;
  plain ← lift (aes_ecb_decrypt core_key key_data);
  lift (key_box_of_plain plain).

(** Lines 70-77: from the meta blob as read to the parsed metadata. *)
Definition meta_data_of (meta_data : bytes) : M json :=
  emit (XorMask 0x63);;
  meta_data ← lift (xor_mask 0x63 meta_data);
  meta_data ← lift (b64decode (slice_from meta_data 22));
  emit (AesDecrypt meta_key);;
  plain ← lift (aes_ecb_decrypt meta_key meta_data);
  plain ← lift (unpad plain);
  text ← lift (utf8_decode plain);
  lift (json_loads (slice_from text 6)).

(** Lines 40-83: everything before the output file is opened.  Returns
    the key box and the format tag that ends [target_filename]. *)
Definition ncmdump_header (f : bytes) : M (bytes * str) :=
  header ← f_read f 8;
  assert_ (bool_decide (header = magic));;
  f_seek 2;;
  key_length ← f_read f 4;
  key_length ← lift (unpack_I key_length);
  key_data ← f_read f key_length;
  key_box ← key_box_of key_data;
  meta_length ← f_read f 4;
  meta_length ← lift (unpack_I meta_length);
  meta_data ← f_read f meta_length;
  meta_data ← meta_data_of meta_data;
  crc32 ← f_read f 4;
  crc32 ← lift (unpack_I crc32);
  f_seek 5;;
  image_size ← f_read f 4;
  image_size ← lift (unpack_I image_size);
  format ← lift (format_of meta_data);
  mret (key_box, format).

(** Lines 39-96 on a file whose content is [f]: the format tag of the
    file written and the final world, or the exception raised. *)
Definition ncmdump (f : bytes) : option (Result str * world) :=
  match ncmdump_header f initial with
  | (Raise e, w) => Some (Raise e, w)
  | (Ok (key_box, format), w) =>
    match dump_loop (S (length f)) f key_box (m_open w).2 with
    | None => None
    | Some (Raise e, w') => Some (Raise e, w')
    | Some (Ok _, w') => Some (Ok format, w')
    end
  end.
End Decoder.

(** ** The transform and the container in the words of the specification *)

(** Section 4.4: for the byte at 1-based position [p], [j = p mod 256] and
    [ks = box[(box[j] + box[(box[j] + j) mod 256]) mod 256]]. *)
Definition keystream_byte (box : bytes) (p : Z) : Z :=
  let j := p mod 256 in
  let bj := box !!! Z.to_nat j in
  box !!! Z.to_nat ((bj + box !!! Z.to_nat ((bj + j) mod 256)) mod 256).

(** The transform with the position counted continuously over the whole
    payload: output byte = input byte XOR [ks]. *)
Definition decrypt_continuous (box : bytes) (payload : bytes) : bytes :=
  imap (λ k b, Z.lxor b (keystream_byte box (Z.of_nat k + 1))) payload.

(** [w] after the cipher work [tr]. *)
Definition extend (tr : list event) (w : world) : world :=
  {| fpos := fpos w; trace := trace w ++ tr; sink := sink w |}.

(** A key-box lookup at an index of a 256-entry table. *)
Definition lookup_in_bounds (e : event) : Prop :=
  ∃ i, e = BoxLookup i ∧ 0 ≤ i < 256.

(** [w] with the file position at [p]. *)
Definition at_pos (p : nat) (w : world) : world :=
  {| fpos := p; trace := trace w; sink := sink w |}.

(** A computation that neither moves the file position nor writes. *)
Definition keeps_file {A : Type} (m : M A) : Prop :=
  ∀ w r w', m w = (r, w') → fpos w' = fpos w ∧ sink w' = sink w.

(** [struct.pack('<I', n)] *)
Definition pack_I (n : Z) : bytes :=
  [n mod 256; n / 256 mod 256; n / 65536 mod 256; n / 16777216 mod 256].

(** The fields of a container, section 6. *)
Record container : Type := Container {
  reserved2 : bytes;
  key_blob : bytes;
  meta_blob : bytes;
  crc32 : bytes;
  reserved5 : bytes;
  image_size : bytes;
  payload : bytes
}.

(** The byte layout of section 6. *)
Definition encode (x : container) : bytes :=
  magic ++ reserved2 x ++ pack_I (len (key_blob x)) ++ key_blob x
        ++ pack_I (len (meta_blob x)) ++ meta_blob x
        ++ crc32 x ++ reserved5 x ++ image_size x ++ payload x.

(** Field sizes of a well-formed container. *)
Definition well_formed (x : container) : Prop :=
  length (reserved2 x) = 2%nat ∧
  len (key_blob x) < 2 ^ 32 ∧ len (meta_blob x) < 2 ^ 32 ∧
  length (crc32 x) = 4%nat ∧ length (reserved5 x) = 5%nat ∧
  length (image_size x) = 4%nat ∧
  is_bytes (payload x).

(** [x] with another CRC32 field, and with another cover-image size. *)
Definition with_crc32 (v : bytes) (x : container) : container :=
  {| reserved2 := reserved2 x; key_blob := key_blob x;
     meta_blob := meta_blob x; crc32 := v; reserved5 := reserved5 x;
     image_size := image_size x; payload := payload x |}.

Definition with_image_size (v : bytes) (x : container) : container :=
  {| reserved2 := reserved2 x; key_blob := key_blob x;
     meta_blob := meta_blob x; crc32 := crc32 x; reserved5 := reserved5 x;
     image_size := v; payload := payload x |}.

Section HeaderResult.
Context `{Library}.

(** What [ncmdump_header] comes to on the layout of section 6: the key
    blob is unwrapped at offset 14 + K, the meta blob at 18 + K + M, and
    the position is left at 31 + K + M. *)
Definition header_result (x : container) : Result (bytes * bytes) * world :=
  let K := length (key_blob x) in
  let M := length (meta_blob x) in
  match key_box_of (key_blob x) (at_pos (14 + K) initial) with
  | (Raise e, w) => (Raise e, w)
  | (Ok box, w1) =>
    match meta_data_of (meta_blob x) (at_pos (18 + K + M) w1) with
    | (Raise e, w) => (Raise e, w)
    | (Ok meta, w2) =>
      match format_of meta with
      | Raise e => (Raise e, at_pos (31 + K + M) w2)
      | Ok format => (Ok (box, format), at_pos (31 + K + M) w2)
      end
    end
  end.
End HeaderResult.

(** ** A toy instance of the library interface

    Every library function returns its argument, so a blob "decrypts" to
    itself and the metadata text is its own format tag.  It serves to run
    the decoder on concrete containers. *)
Definition toy_library : Library :=
  {| json := list Z;
     aes_ecb_decrypt := λ _ data, Ok data;
     b64decode := Ok;
     utf8_decode := Ok;
     json_loads := Ok;
     format_of := Ok |}.

(** [b'neteasecloudmusic' + b'A' + 14 * b'\x0e'], masked with [0x64]. *)
Definition toy_key_blob : bytes :=
  Z.lxor 0x64 <$>
    [110; 101; 116; 101; 97; 115; 101; 99; 108; 111; 117; 100; 109; 117;
     115; 105; 99; 65; 14; 14; 14; 14; 14; 14; 14; 14; 14; 14; 14; 14; 14; 14].

(** [b"163 key(Don't modify):" + b'music:' + b'mp3' + 7 * b'\x07'], masked
    with [0x63]. *)
Definition toy_meta_blob : bytes :=
  Z.lxor 0x63 <$>
    [49; 54; 51; 32; 107; 101; 121; 40; 68; 111; 110; 39; 116; 32; 109; 111;
     100; 105; 102; 121; 41; 58; 109; 117; 115; 105; 99; 58; 109; 112; 51;
     7; 7; 7; 7; 7; 7; 7].

Definition toy_container (payload : bytes) : container :=
  {| reserved2 := [1; 112]; key_blob := toy_key_blob;
     meta_blob := toy_meta_blob; crc32 := [1; 2; 3; 4];
     reserved5 := [0; 0; 0; 0; 1]; image_size := [5; 0; 0; 0];
     payload := payload |}.

(** The key box of the seed key [b'A'], which [toy_key_blob] wraps. *)
Definition toy_box : bytes :=
  Eval vm_compute in
    match build_key_box [65] with Ok box => box | Raise _ => [] end.

(** The world the header phase leaves on a toy container. *)
Definition toy_world : world :=
  {| fpos := 101;
     trace := [XorMask 0x64; AesDecrypt core_key;
               XorMask 0x63; AesDecrypt meta_key];
     sink := None |}.


(** ** More about the world and the container *)


(** [x] with other reserved bytes. *)
Definition with_reserved (v2 v5 : bytes) (x : container) : container :=
  {| reserved2 := v2; key_blob := key_blob x;
     meta_blob := meta_blob x; crc32 := crc32 x; reserved5 := v5;
     image_size := image_size x; payload := payload x |}.


(** ** The callers: file names, folders and the song library *)

(** A string literal, as a Python [str]. *)
Definition lit (s : string) : str :=
  (λ a, Z.of_N (Ascii.N_of_ascii a)) <$> String.list_ascii_of_string s.

(** [s.endswith(suffix)] *)
Definition endswith (s suffix : str) : bool :=
  bool_decide (suffix `suffix_of` s).

(** What the callers can raise: an exception of the decoder, an error of
    the file system, a division by zero. *)
Inductive error : Type :=
  | Exn (e : exn)
  | OSError
  | ZeroDivisionError.

Inductive Res (A : Type) : Type :=
  | Done (a : A)
  | Fail (e : error).
Arguments Done {A} a.
Arguments Fail {A} e.

#[global] Instance Res_ret : MRet Res := @Done.
#[global] Instance Res_bind : MBind Res := λ A B f r,
  match r with
  | Done a => f a
  | Fail e => Fail e
  end.

(** [for x in xs: s = body(s, x)] for bodies in [Res]. *)
Fixpoint for_res {A T : Type} (body : T → A → Res T) (xs : list A) (s : T)
  : Res T :=
  match xs with
  | [] => Done s
  | x :: xs' => s' ← body s x; for_res body xs' s'
  end.

(** The functions of [os], [os.path] and [shutil] the callers use, on the
    file system as it is when they are called, and the one comparison of
    floats. *)
Class Os : Type := {
  (** [os.path.basename(p)] *)
  basename : str → str;
  (** [os.path.join(a, b)] *)
  join : str → str → str;
  (** [os.path.splitext(p)] *)
  splitext : str → str * str;
  (** [s.lower()] *)
  lower : str → str;
  (** [os.path.isfile(p)] *)
  isfile : str → bool;
  (** [os.path.getsize(p)] *)
  getsize : str → Res Z;
  (** [os.walk(folder)]: the [(root, files)] of each directory, in order *)
  walk : str → list (str * list str);
  (** [open(p, 'rb')] and the content read through it *)
  read_rb : str → Res (list Z);
  (** [open(p, 'wb')] *)
  create_wb : str → Res unit;
  (** [shutil.copy2(src, dst)] *)
  copy2 : str → str → Res unit;
  (** [a / b < 0.03] in floating point, for [b] other than 0 *)
  ratio_below : Z → Z → bool
}.

(** What a call of [ncmdump] did: it returned [None] without writing, or
    it wrote [data] to [target] and returned [target]. *)
Inductive outcome : Type :=
  | Skipped
  | Converted (target : str) (data : list Z).

Section Callers.
Context `{Library} `{Os}.

(** Lines 27-31: [for ftype in ['mp3', 'flac']: fname = os.path.join(
    target_folder, f'{filename}.{ftype}'); if os.path.isfile(fname): ...
    return].  The file the loop returns on, if it does. *)
Fixpoint existing_output (target_folder filename : str) (ftypes : list str)
  : option str :=
  match ftypes with
  | [] => None
  | ftype :: ftypes' =>
    let fname := join target_folder (filename ++ lit "." ++ ftype) in
    if isfile fname then Some fname
    else existing_output target_folder filename ftypes'
  end.

(** [ncmdump(filepath, target_folder)], lines 21-96; [None] when the
    chunk loop runs out of fuel. *)
Definition ncmdump_path (filepath target_folder : str)
  : option (Res outcome) :=
  let filename := basename filepath in
  if negb (endswith filename (lit ".ncm")) then Some (Done Skipped) else
  let filename := slice filename 0 (-4) in
  match existing_output target_folder filename [lit "mp3"; lit "flac"] with
  | Some _ => Some (Done Skipped)
  | None =>
    match read_rb filepath with
    | Fail e => Some (Fail e)
    | Done f =>
      match ncmdump_header f initial with
      | (Raise e, _) => Some (Fail (Exn e))
      | (Ok (key_box, format), w) =>
        let target_filename :=
          join target_folder (filename ++ lit "." ++ format) in
        match create_wb target_filename with
        | Fail e => Some (Fail e)
        | Done _ =>
          match dump_loop (S (length f)) f key_box (m_open w).2 with
          | None => None
          | Some (Raise e, _) => Some (Fail (Exn e))
          | Some (Ok _, w') =>
            Some (Done (Converted target_filename (default [] (sink w'))))
          end
        end
      end
    end
  end.
End Callers.

(** An entry of the song library: [{'size': .., 'path': ..}]. *)
Record info : Type := Info { size : Z; path : list Z }.


(** [['.mp3', '.flac', '.ncm']] *)
Definition music_exts : list (list Z) := [lit ".mp3"; lit ".flac"; lit ".ncm"].

Section SongLibrary.
Context `{Library} `{Os}.


(** The body of [for f in files], lines 108-112. *)
Definition scan_file (root : str) (music_dict : gmap (list Z) info) (f : str)
  : Res (gmap (list Z) info) :=
  let '(name, ext) := splitext f in
  if bool_decide (lower ext ∈ music_exts) then
    let path := join root f in
    size ← getsize path;
    Done (<[name := {| size := size; path := path |}]> music_dict)
  else Done music_dict.

(** [get_music_dict(folder)], lines 101-113. *)
Definition get_music_dict (folder : str) : Res (gmap (list Z) info) :=
  for_res (λ music_dict '(root, files),
             for_res (scan_file root) files music_dict)
          (walk folder) ∅.

(** The files [os.walk] yields, each with its root, in order. *)
Definition walked (folder : str) : list (list Z * list Z) :=
  '(root, files) ← walk folder; (λ f, (root, f)) <$> files.

(** The test of line 109 on a file name. *)
Definition is_music (f : str) : Prop := lower (splitext f).2 ∈ music_exts.

#[global] Instance is_music_dec (f : str) : Decision (is_music f).
Proof. unfold is_music. apply _. Defined.

(** [a / b < 0.03] on the sizes of two entries of the same name. *)
Definition close_sizes (info1 info2 : info) : bool :=
  ratio_below (Z.abs (size info1 - size info2))
              (Z.max (size info1) (size info2)).

(** [abs(size1 - size2) / max(size1, size2) < 0.03], line 169. *)
Definition sizes_close (size1 size2 : Z) : Res bool :=
  if bool_decide (Z.max size1 size2 = 0) then Fail ZeroDivisionError
  else Done (ratio_below (Z.abs (size1 - size2)) (Z.max size1 size2)).

(** The body of [for name in list(wf_keys)], lines 166-172, on the pair
    [(wf_keys, sf_keys)]. *)
Definition select_step (wf_dict sf_dict : gmap (list Z) info)
    (keys : gset (list Z) * gset (list Z)) (name : str)
  : Res (gset (list Z) * gset (list Z)) :=
  match sf_dict !! name with
  | None => Done keys
  | Some info2 =>
    info1 ← from_option Done (Fail (Exn KeyError)) (wf_dict !! name);
    close ← sizes_close (size info1) (size info2);
    if (close : bool) then Done (keys.1 ∖ {[name]}, keys.2 ∖ {[name]})
    else Done keys
  end.

(** Lines 162-174 of [main]: the set of the names in [to_add].  [order]
    is [list(wf_keys)], the keys of [wf_dict] in the order Python
    iterates the set. *)
Definition songs_to_add (order : list (list Z))
    (wf_dict sf_dict : gmap (list Z) info) : Res (gset (list Z)) :=
  keys ← for_res (select_step wf_dict sf_dict) order
                 (dom wf_dict, dom sf_dict);
  Done keys.1.
End SongLibrary.

(** ** A toy file system *)

(** One folder, no directories in paths, every file 10 bytes long and
    holding the toy container of [[1; 2; 3]]; nothing exists in the
    target folder. *)
Definition toy_os : Os :=
  {| basename := λ p, p;
     join := λ a b, a ++ lit "/" ++ b;
     splitext := λ p, (take (length p - 4) p, drop (length p - 4) p);
     lower := λ s, s;
     isfile := λ _, false;
     getsize := λ _, Done 10;
     walk := λ folder, [(folder, [lit "a.ncm"; lit "b.txt"; lit "a.mp3"])];
     read_rb := λ _, Done (encode (toy_container [1; 2; 3]));
     create_wb := λ _, Done tt;
     copy2 := λ _ _, Done tt;
     ratio_below := λ a b, bool_decide (100 * a < 3 * b) |}.

(** * Properties *)

(** ** The [Result] monad and Python indexing *)

Lemma bind_Ok {A B : Type} (r : Result A) (f : A → Result B) (b : B) :
  r ≫= f = Ok b → ∃ a, r = Ok a ∧ f a = Ok b.
Proof. destruct r as [a|e]; simpl; [eauto | discriminate]. Qed.

Lemma Ok_bind {A B : Type} (a : A) (f : A → Result B) : Ok a ≫= f = f a.
Proof. done. Qed.

Lemma for_each_app {A T : Type} (body : T → A → Result T) xs ys s :
  for_each body (xs ++ ys) s = s' ← for_each body xs s; for_each body ys s'.
Proof.
  revert s. induction xs as [|x xs IH]; intros s; simpl; [done|].
  destruct (body s x) as [s1|e]; simpl; [apply IH | done].
Qed.

(** A loop whose body keeps [P] and cannot raise on the items of [xs]
    runs to its end and keeps [P]. *)
Lemma for_each_inv {A T : Type} (P : T → Prop) (Q : A → Prop)
    (body : T → A → Result T) xs s :
  P s → Forall Q xs →
  (∀ s x, P s → Q x → ∃ s', body s x = Ok s' ∧ P s') →
  ∃ s', for_each body xs s = Ok s' ∧ P s'.
Proof.
  intros Hs Hxs Hbody. revert s Hs.
  induction Hxs as [|x xs Hx _ IH]; intros s Hs; simpl; [eauto|].
  destruct (Hbody s x Hs Hx) as (s1 & -> & Hs1). simpl. by apply IH.
Qed.

(** A loop that ran to its end kept every property its body keeps. *)
Lemma for_each_keeps {A T : Type} (P : T → Prop)
    (body : T → A → Result T) xs s s' :
  (∀ s x s', P s → body s x = Ok s' → P s') →
  P s → for_each body xs s = Ok s' → P s'.
Proof.
  intros Hbody. revert s. induction xs as [|x xs IH]; intros s Hs; simpl.
  - by intros [= <-].
  - intros (s1 & H1 & H2)%bind_Ok. eauto.
Qed.

Lemma index_of_nonneg n i : 0 ≤ i < n → index_of n i = Ok (Z.to_nat i).
Proof. intros. unfold index_of. by rewrite bool_decide_eq_true_2. Qed.

Lemma getitem_Ok s i x :
  getitem s i = Ok x → ∃ k, index_of (len s) i = Ok k ∧ s !! k = Some x.
Proof.
  unfold getitem. intros (k & Hk & Hx)%bind_Ok. exists k. split; [done|].
  destruct (s !! k); simpl in Hx; congruence.
Qed.

Lemma getitem_nonneg s i :
  0 ≤ i < len s → ∃ x, getitem s i = Ok x ∧ s !! Z.to_nat i = Some x.
Proof.
  intros Hi.
  destruct (lookup_lt_is_Some_2 s (Z.to_nat i)) as [x Hx];
    [unfold len in Hi; lia|].
  exists x. unfold getitem. rewrite index_of_nonneg by done.
  unfold mbind, Result_bind. by rewrite Hx.
Qed.

Lemma setitem_Ok s i v s' :
  setitem s i v = Ok s' →
  ∃ k, index_of (len s) i = Ok k ∧ s' = <[k:=v]> s ∧ is_byte v.
Proof.
  unfold setitem. intros (k & Hk & Hv)%bind_Ok. exists k.
  case_bool_decide; [|discriminate]. by injection Hv as <-.
Qed.

Lemma setitem_nonneg s i v :
  0 ≤ i < len s → is_byte v → setitem s i v = Ok (<[Z.to_nat i:=v]> s).
Proof.
  intros Hi Hv. unfold setitem. rewrite index_of_nonneg by done. simpl.
  by rewrite bool_decide_eq_true_2.
Qed.

Lemma len_insert (s : bytes) k v : len (<[k:=v]> s) = len s.
Proof. unfold len. by rewrite length_insert. Qed.

Lemma is_bytes_range n : n ≤ 256 → is_bytes (range n).
Proof.
  intros Hn. apply Forall_forall. intros x Hx.
  apply elem_of_seqZ in Hx. unfold is_byte. lia.
Qed.

Lemma is_bytes_lookup (s : bytes) k x : is_bytes s → s !! k = Some x → is_byte x.
Proof. intros Hs Hx. by eapply Forall_lookup_1 in Hs. Qed.

(** ** The key box is a permutation of 0..255 *)

(** An iteration exchanges the entries at [i] and [c]: the box it leaves is
    the old one with those two entries written crosswise. *)
Lemma ks_step_swap key_data key_length st i st' :
  ks_step key_data key_length st i = Ok st' →
  ∃ ki kc x y,
    index_of (len (key_box st)) i = Ok ki ∧
    index_of (len (key_box st)) (c st') = Ok kc ∧
    key_box st !! ki = Some x ∧ key_box st !! kc = Some y ∧
    key_box st' = <[kc:=x]> (<[ki:=y]> (key_box st)).
Proof.
  unfold ks_step.
  intros (swap & Hswap & H1)%bind_Ok.
  apply bind_Ok in H1 as (k & Hk & H2).
  apply bind_Ok in H2 as (v & Hv & H3).
  apply bind_Ok in H3 as (box1 & Hbox1 & H4).
  apply bind_Ok in H4 as (box2 & Hbox2 & H5).
  injection H5 as <-. simpl.
  apply getitem_Ok in Hswap as (ki & Hki & Hx).
  apply getitem_Ok in Hv as (kc & Hkc & Hy).
  apply setitem_Ok in Hbox1 as (ki' & Hki' & -> & _).
  apply setitem_Ok in Hbox2 as (kc' & Hkc' & -> & _).
  rewrite len_insert in Hkc'. rewrite Hki in Hki'. rewrite Hkc in Hkc'.
  simplify_eq.
  by repeat eexists.
Qed.

Lemma ks_step_perm key_data key_length st i st' :
  ks_step key_data key_length st i = Ok st' → key_box st' ≡ₚ key_box st.
Proof.
  intros (ki & kc & x & y & _ & _ & Hx & Hy & ->)%ks_step_swap.
  by apply Permutation_insert_swap.
Qed.

Lemma perm_range_bytes (box : bytes) :
  box ≡ₚ range 256 → length box = 256%nat ∧ is_bytes box.
Proof.
  intros Hp. split.
  - rewrite Hp. unfold range. by rewrite length_seqZ.
  - unfold is_bytes. rewrite Hp. by apply is_bytes_range.
Qed.

(** With a non-empty key an iteration cannot raise, and it leaves the key
    offset inside the key. *)
Lemma ks_step_total key_data st i :
  0 < len key_data →
  key_box st ≡ₚ range 256 → 0 ≤ key_offset st < len key_data →
  0 ≤ i < 256 →
  ∃ st', ks_step key_data (len key_data) st i = Ok st' ∧
         key_box st' ≡ₚ range 256 ∧ 0 ≤ key_offset st' < len key_data.
Proof.
  intros Hkey Hp Hoff Hi.
  destruct (perm_range_bytes _ Hp) as [Hlen Hb].
  assert (len (key_box st) = 256) as Hl by (unfold len; lia).
  assert (∃ st', ks_step key_data (len key_data) st i = Ok st'
                 ∧ 0 ≤ key_offset st' < len key_data) as (st' & Hst & Hoff').
  { unfold ks_step.
    destruct (getitem_nonneg (key_box st) i) as (swap & -> & Hswap); [lia|].
    destruct (getitem_nonneg key_data (key_offset st)) as (k & -> & _); [lia|].
    rewrite !Ok_bind. cbv zeta.
    set (c' := Z.land (swap + last_byte st + k) 255).
    assert (0 ≤ c' < 256) as Hc.
    { subst c'. change 255 with (Z.ones 8). rewrite Z.land_ones by lia.
      apply Z.mod_pos_bound. lia. }
    destruct (getitem_nonneg (key_box st) c') as (v & -> & Hv); [lia|].
    rewrite Ok_bind. rewrite setitem_nonneg; [|lia|by eapply is_bytes_lookup].
    rewrite Ok_bind. rewrite setitem_nonneg;
      [|rewrite len_insert; lia|by eapply is_bytes_lookup].
    rewrite Ok_bind. eexists. split; [done|]. simpl. case_bool_decide; lia. }
  exists st'. split; [done|]. split; [|done].
  rewrite <-Hp. by eapply ks_step_perm.
Qed.

Lemma ks_init_perm : key_box ks_init ≡ₚ range 256.
Proof. done. Qed.

(** The first [n + 1] iterations are the first [n] followed by iteration
    [n]: [ks_run _ n] is the state of the one loop after [n] iterations. *)
Lemma ks_run_succ key_data n :
  0 ≤ n →
  ks_run key_data (n + 1) =
    st ← ks_run key_data n; ks_step key_data (len key_data) st n.
Proof.
  intros Hn. unfold ks_run, range.
  rewrite seqZ_app by lia. rewrite (seqZ_cons (0 + n) 1) by lia.
  rewrite (seqZ_nil (Z.succ (0 + n))) by lia. rewrite for_each_app, Z.add_0_l.
  destruct (for_each _ (seqZ 0 n) ks_init) as [st|e]; [|done].
  rewrite !Ok_bind. simpl. by destruct (ks_step _ _ _ _).
Qed.

(** Whenever the loop gets through [n] iterations, the box is a
    permutation of 0..255 (for any key, any [n]). *)
Lemma ks_run_perm key_data n st :
  ks_run key_data n = Ok st → key_box st ≡ₚ range 256.
Proof.
  unfold ks_run. intros Hrun.
  eapply (for_each_keeps (λ s, key_box s ≡ₚ range 256));
    [|apply ks_init_perm|exact Hrun].
  intros s x s' Hs Hstep. rewrite <-Hs. by eapply ks_step_perm.
Qed.

Lemma ks_run_total key_data n :
  0 < len key_data → n ≤ 256 →
  ∃ st, ks_run key_data n = Ok st ∧ key_box st ≡ₚ range 256.
Proof.
  intros Hkey Hn.
  destruct (for_each_inv
    (λ st, key_box st ≡ₚ range 256 ∧ 0 ≤ key_offset st < len key_data)
    (λ i, 0 ≤ i < 256)
    (ks_step key_data (len key_data)) (range n) ks_init)
    as (st & Hst & Hp & _).
  - split; [apply ks_init_perm | simpl; lia].
  - apply Forall_forall. intros i Hin. apply elem_of_seqZ in Hin. lia.
  - intros s i [Hp Hoff] Hi.
    destruct (ks_step_total key_data s i) as (s' & ? & ? & ?); eauto.
  - by exists st.
Qed.

Lemma build_key_box_perm key_data box :
  build_key_box key_data = Ok box → box ≡ₚ range 256.
Proof.
  unfold build_key_box. intros (st & Hst & [= <-])%bind_Ok.
  by eapply ks_run_perm.
Qed.

(** C1. For every seed key of 1 to 64 bytes, the scheduling loop returns a
    table that is a permutation of 0..255, and so is the table after each
    of its iterations: for every [n] from 0 to 256 the loop gets through
    its first [n] iterations and the box is then a permutation of 0..255;
    every iteration exchanges two entries of the box. *)
Theorem key_box_bijective (key_data : bytes) :
  (1 ≤ length key_data ≤ 64)%nat →
  (∃ box, build_key_box key_data = Ok box ∧ box ≡ₚ range 256) ∧
  (∀ n, 0 ≤ n ≤ 256 →
     ∃ st, ks_run key_data n = Ok st ∧ key_box st ≡ₚ range 256) ∧
  (∀ n st st', 0 ≤ n < 256 →
     ks_run key_data n = Ok st → ks_run key_data (n + 1) = Ok st' →
     ∃ ki kc x y,
       key_box st !! ki = Some x ∧ key_box st !! kc = Some y ∧
       key_box st' = <[kc:=x]> (<[ki:=y]> (key_box st))).
Proof.
  intros Hlen. assert (0 < len key_data) as Hkey by (unfold len; lia).
  split_and!.
  - destruct (ks_run_total key_data 256) as (st & Hst & Hp); [done..|].
    exists (key_box st). unfold build_key_box. by rewrite Hst.
  - intros n Hn. apply ks_run_total; [done | lia].
  - intros n st st' Hn Hst Hst'. rewrite ks_run_succ, Hst in Hst' by lia.
    simpl in Hst'.
    apply ks_step_swap in Hst' as (ki & kc & x & y & _ & _ & ? & ? & ?).
    by exists ki, kc, x, y.
Qed.

Lemma key_box_bijective_witness :
  ∃ box, build_key_box [65] = Ok box ∧ box ≡ₚ range 256.
Proof. apply (key_box_bijective [65]). simpl. lia. Defined.


(** C5. With the seed key [b'\x00'], the table the 256 iterations leave
    does not start 0, 1, 3, 5. *)
Lemma known_vector_fails :
  ¬ ∃ box, build_key_box [0] = Ok box ∧
           box !! 0%nat = Some 0 ∧ box !! 1%nat = Some 1 ∧
           box !! 2%nat = Some 3 ∧ box !! 3%nat = Some 5.
Proof.
  intros (box & Hbox & _ & H1 & _).
  vm_compute in Hbox. injection Hbox as <-. discriminate H1.
Qed.

(** C5, amended. With the seed key [b'\x00'], the first four entries are
    0, 1, 3, 5 after the first four iterations, and 0, 35, 3, 43 after all
    256 iterations. *)
Theorem known_vector :
  (∃ st, ks_run [0] 4 = Ok st ∧ take 4 (key_box st) = [0; 1; 3; 5]) ∧
  (∃ box, build_key_box [0] = Ok box ∧ take 4 box = [0; 35; 3; 43]).
Proof. split; eexists; (split; [vm_compute; reflexivity | reflexivity]). Qed.

(** ** Running a computation on a world *)

Lemma run_bind {A B : Type} (m : M A) (f : A → M B) w :
  (m ≫= f) w =
    match m w with
    | (Ok a, w') => f a w'
    | (Raise e, w') => (Raise e, w')
    end.
Proof. done. Qed.

Lemma run_lift {A : Type} (r : Result A) w : lift r w = (r, w).
Proof. done. Qed.

Lemma run_box_lookup box i w :
  box_lookup box i w = (getitem box i, extend [BoxLookup i] w).
Proof. done. Qed.

Lemma extend_nil w : extend [] w = w.
Proof. destruct w. unfold extend. simpl. by rewrite app_nil_r. Qed.

Lemma extend_extend t1 t2 w : extend t2 (extend t1 w) = extend (t1 ++ t2) w.
Proof. unfold extend. simpl. by rewrite app_assoc. Qed.

(** A loop in [M] whose body cannot raise and takes the invariant [I k] to
    [I (k + 1)] at item [k] runs to its end. *)
Lemma for_M_inv {A T : Type} (I : nat → T → world → Prop)
    (body : T → A → M T) xs s w :
  I 0%nat s w →
  (∀ k x s w, xs !! k = Some x → I k s w →
     ∃ s' w', body s x w = (Ok s', w') ∧ I (S k) s' w') →
  ∃ s' w', for_M body xs s w = (Ok s', w') ∧ I (length xs) s' w'.
Proof.
  revert I s w. induction xs as [|x xs IH]; intros I s w H0 Hstep; simpl.
  - by exists s, w.
  - destruct (Hstep 0%nat x s w) as (s1 & w1 & Hb & H1); [done..|].
    rewrite run_bind, Hb.
    apply (IH (λ k, I (S k))); [done|].
    intros k y s2 w2 Hy. by apply Hstep.
Qed.

(** ** Bytes under XOR and mask *)

Lemma land_255 x : Z.land x 255 = x mod 256.
Proof. change 255 with (Z.ones 8). by rewrite Z.land_ones. Qed.

Lemma land_255_bounds x : 0 ≤ Z.land x 255 < 256.
Proof. rewrite land_255. by apply Z.mod_pos_bound. Qed.

Lemma is_byte_lxor a b : is_byte a → is_byte b → is_byte (Z.lxor a b).
Proof.
  unfold is_byte. intros Ha Hb.
  assert (0 ≤ Z.lxor a b) as Hnn by (apply Z.lxor_nonneg; lia).
  change 256 with (2 ^ 8).
  apply Z.bounded_iff_bits_nonneg'; [lia|done|].
  intros l Hl. rewrite Z.lxor_spec.
  rewrite (proj1 (Z.bounded_iff_bits_nonneg 8 a ltac:(lia) ltac:(lia)))
    by (done || lia).
  rewrite (proj1 (Z.bounded_iff_bits_nonneg 8 b ltac:(lia) ltac:(lia)))
    by (done || lia).
  done.
Qed.

Lemma lxor_twice a b : Z.lxor (Z.lxor a b) b = a.
Proof. by rewrite Z.lxor_assoc, Z.lxor_nilpotent, Z.lxor_0_r. Qed.

(** ** One chunk *)

Lemma length_decrypt_continuous box s :
  length (decrypt_continuous box s) = length s.
Proof. apply length_imap. Qed.

Lemma is_bytes_decrypt_continuous box s :
  is_bytes box → length box = 256%nat → is_bytes s →
  is_bytes (decrypt_continuous box s).
Proof.
  intros Hbox Hlen Hs. apply Forall_lookup_2. intros k y Hy.
  unfold decrypt_continuous in Hy.
  apply list_lookup_imap_Some in Hy as (x & Hx & ->).
  apply is_byte_lxor; [by eapply is_bytes_lookup|].
  unfold keystream_byte.
  eapply (Forall_lookup_1 _ _ _ _ Hbox), list_lookup_lookup_total_lt.
  pose proof (Z.mod_pos_bound
    (box !!! Z.to_nat ((Z.of_nat k + 1) `mod` 256)
     + box !!! Z.to_nat ((box !!! Z.to_nat ((Z.of_nat k + 1) `mod` 256)
                          + (Z.of_nat k + 1) `mod` 256) `mod` 256)) 256).
  lia.
Qed.

(** One iteration on a 256-entry byte table: the byte at [i - 1] is XORed
    with the keystream byte of position [i], by four lookups at indices
    in 0..255. *)
Lemma decrypt_byte_spec box chunk i old w :
  length box = 256%nat → is_bytes box →
  1 ≤ i → chunk !! Z.to_nat (i - 1) = Some old → is_byte old →
  ∃ tr,
    decrypt_byte box chunk i w =
      (Ok (<[Z.to_nat (i - 1) := Z.lxor old (keystream_byte box i)]> chunk),
       extend tr w) ∧
    Forall lookup_in_bounds tr ∧ length tr = 4%nat.
Proof.
  intros Hlen Hbox Hi Hold Hbyte.
  assert (len box = 256) as Hl by (unfold len; lia).
  assert (0 ≤ i - 1 < len chunk) as Hi'.
  { apply lookup_lt_Some in Hold. unfold len. lia. }
  unfold decrypt_byte. cbv zeta.
  pose proof (land_255_bounds i) as Hj.
  destruct (getitem_nonneg chunk (i - 1)) as (old' & Hget & Hold'); [done|].
  assert (old' = old) as -> by congruence.
  destruct (getitem_nonneg box (Z.land i 255)) as (a & Ha & Ha'); [lia|].
  pose proof (land_255_bounds (a + Z.land i 255)) as Hk.
  destruct (getitem_nonneg box (Z.land (a + Z.land i 255) 255))
    as (b & Hb & Hb'); [lia|].
  pose proof (land_255_bounds (a + b)) as Hm.
  destruct (getitem_nonneg box (Z.land (a + b) 255)) as (ks & Hks & Hks');
    [lia|].
  exists [BoxLookup (Z.land i 255); BoxLookup (Z.land i 255);
          BoxLookup (Z.land (a + Z.land i 255) 255);
          BoxLookup (Z.land (a + b) 255)].
  split; [|split; [|done]].
  - rewrite run_bind, run_lift, Hget.
    rewrite run_bind, run_box_lookup, Ha.
    rewrite run_bind, run_box_lookup, Ha.
    rewrite run_bind, run_box_lookup, Hb.
    rewrite run_bind, run_box_lookup, Hks.
    rewrite run_lift, !extend_extend. simpl.
    assert (is_byte ks) as Hksb by (by eapply is_bytes_lookup).
    rewrite setitem_nonneg by (done || by apply is_byte_lxor).
    do 3 f_equal. unfold keystream_byte. cbv zeta.
    rewrite !land_255 in *.
    apply list_lookup_total_correct in Ha', Hb', Hks'.
    by rewrite Ha', Hb', Hks'.
  - repeat constructor; eexists; (split; [done|]); done.
Qed.

(** A chunk of bytes under a 256-entry byte table: the loop cannot raise,
    it XORs every byte with the keystream byte of its 1-based position in
    the chunk, and it looks the box up four times a byte, always at an
    index in 0..255. *)
Lemma decrypt_chunk_spec box chunk w :
  length box = 256%nat → is_bytes box → is_bytes chunk →
  ∃ tr,
    decrypt_chunk box chunk w = (Ok (decrypt_continuous box chunk), extend tr w) ∧
    Forall lookup_in_bounds tr ∧ length tr = (4 * length chunk)%nat.
Proof.
  intros Hlen Hbox Hchunk. unfold decrypt_chunk. cbv zeta.
  set (out := decrypt_continuous box chunk).
  assert (length out = length chunk) as Hout
    by apply length_decrypt_continuous.
  destruct (for_M_inv
    (λ k s w', s = take k out ++ drop k chunk ∧
       ∃ tr, w' = extend tr w ∧ Forall lookup_in_bounds tr ∧
             length tr = (4 * k)%nat)
    (decrypt_byte box) (range2 1 (len chunk + 1)) chunk w)
    as (s' & w' & Hrun & -> & tr & -> & Htr & Hn).
  - split; [done|]. exists []. by rewrite extend_nil.
  - intros k x s w1 Hx (-> & tr & -> & Htr & Hn).
    unfold range2 in Hx. apply lookup_seqZ in Hx as [-> Hk].
    assert (k < length chunk)%nat as Hk' by (unfold len in Hk; lia).
    destruct (lookup_lt_is_Some_2 chunk k Hk') as [old Hold].
    assert (Z.to_nat (1 + Z.of_nat k - 1) = k) as Hidx by lia.
    destruct (decrypt_byte_spec box (take k out ++ drop k chunk)
                (1 + Z.of_nat k) old (extend tr w))
      as (tr1 & Hstep & Htr1 & Hn1); [done|done|lia| |by eapply is_bytes_lookup|].
    { rewrite Hidx, lookup_app_r by (rewrite length_take; lia).
      rewrite length_take, lookup_drop.
      replace (k + (k - k `min` length out))%nat with k by lia. done. }
    eexists _, _. split; [exact Hstep|]. split.
    + rewrite Hidx.
      rewrite insert_app_r_alt by (rewrite length_take; lia).
      rewrite length_take.
      replace (k - k `min` length out)%nat with 0%nat by lia.
      rewrite (drop_S chunk old k) by done. simpl.
      rewrite (take_S_r out k (Z.lxor old (keystream_byte box (1 + Z.of_nat k)))).
      * by rewrite <-app_assoc.
      * subst out. unfold decrypt_continuous.
        rewrite list_lookup_imap, Hold. simpl.
        by rewrite (Z.add_comm 1).
    + exists (tr ++ tr1). rewrite extend_extend. split; [done|].
      split; [by apply Forall_app|]. rewrite length_app. lia.
  - exists tr. split; [|split; [done|]].
    + rewrite Hrun. do 2 f_equal.
      unfold range2. rewrite length_seqZ.
      replace (Z.to_nat (len chunk + 1 - 1)) with (length chunk)
        by (unfold len; lia).
      rewrite take_ge, drop_ge by lia. by rewrite app_nil_r.
    + rewrite Hn. unfold range2. rewrite length_seqZ. unfold len. lia.
Qed.


Lemma decrypt_continuous_twice box s :
  decrypt_continuous box (decrypt_continuous box s) = s.
Proof.
  apply list_eq. intros k. unfold decrypt_continuous.
  rewrite !list_lookup_imap. destruct (s !! k) as [x|]; simpl; [|done].
  by rewrite lxor_twice.
Qed.

(** C2. For every 256-entry byte table and every byte sequence of at most
    32768 bytes (one chunk), the transform applied twice with the same key
    box gives the sequence back. *)
Theorem decrypt_involution (box x : bytes) (w : world) :
  length box = 256%nat → is_bytes box →
  is_bytes x → len x ≤ 32768 →
  ∃ y w1 w2,
    decrypt_chunk box x w = (Ok y, w1) ∧ decrypt_chunk box y w1 = (Ok x, w2).
Proof.
  intros Hlen Hbox Hx _.
  destruct (decrypt_chunk_spec box x w) as (tr1 & H1 & _); [done..|].
  assert (is_bytes (decrypt_continuous box x)) as Hy
    by by apply is_bytes_decrypt_continuous.
  destruct (decrypt_chunk_spec box (decrypt_continuous box x) (extend tr1 w))
    as (tr2 & H2 & _); [done..|].
  rewrite decrypt_continuous_twice in H2. eauto.
Qed.

Lemma decrypt_involution_witness :
  ∃ y w1 w2,
    decrypt_chunk (range 256) [10; 20; 30] initial = (Ok y, w1) ∧
    decrypt_chunk (range 256) y w1 = (Ok [10; 20; 30], w2).
Proof.
  apply (decrypt_involution (range 256) [10; 20; 30] initial).
  - reflexivity.
  - apply is_bytes_range. lia.
  - repeat constructor; unfold is_byte; lia.
  - unfold len. simpl. lia.
Defined.

(** C10. For every 256-entry byte table and every chunk of bytes, the
    transform looks the key box up four times for each byte of the chunk,
    every time at an index in 0..255, and no lookup raises: the chunk is
    transformed to the end. *)
Theorem box_lookups_in_bounds (box chunk : bytes) (w : world) :
  length box = 256%nat → is_bytes box → is_bytes chunk →
  ∃ out tr,
    decrypt_chunk box chunk w = (Ok out, extend tr w) ∧
    Forall lookup_in_bounds tr ∧ length tr = (4 * length chunk)%nat.
Proof.
  intros Hlen Hbox Hchunk.
  destruct (decrypt_chunk_spec box chunk w) as (tr & ? & ? & ?); eauto.
Qed.

Lemma box_lookups_in_bounds_witness :
  ∃ out tr,
    decrypt_chunk (range 256) [255; 0] initial = (Ok out, extend tr initial) ∧
    Forall lookup_in_bounds tr ∧ length tr = 8%nat.
Proof.
  apply (box_lookups_in_bounds (range 256) [255; 0] initial).
  - reflexivity.
  - apply is_bytes_range. lia.
  - repeat constructor; unfold is_byte; lia.
Defined.

(** ** The chunk loop *)

Lemma keystream_byte_periodic box p q :
  p mod 256 = q mod 256 → keystream_byte box p = keystream_byte box q.
Proof. unfold keystream_byte. by intros ->. Qed.

(** After a whole number of 256-byte periods the keystream starts over. *)
Lemma decrypt_continuous_app box s1 s2 :
  Z.of_nat (length s1) mod 256 = 0 →
  decrypt_continuous box (s1 ++ s2) =
    decrypt_continuous box s1 ++ decrypt_continuous box s2.
Proof.
  intros Hper. unfold decrypt_continuous. rewrite imap_app. f_equal.
  apply imap_ext. intros k x _. simpl. f_equal.
  apply keystream_byte_periodic.
  rewrite Nat2Z.inj_add, <-Z.add_assoc, Z.add_mod, Hper by lia.
  rewrite Z.add_0_l. by rewrite Z.mod_mod by lia.
Qed.

Lemma dump_loop_unfold fuel f box w :
  dump_loop (S fuel) f box w =
    match take (Z.to_nat 32768) (drop (fpos w) f) with
    | [] => Some (Ok tt, {| fpos := fpos w + 0; trace := trace w; sink := sink w |})
    | chunk =>
      let w1 := {| fpos := fpos w + length chunk; trace := trace w;
                   sink := sink w |} in
      match decrypt_chunk box chunk w1 with
      | (Raise e, w2) => Some (Raise e, w2)
      | (Ok chunk', w2) => dump_loop fuel f box (m_write chunk' w2).2
      end
    end.
Proof.
  cbn [dump_loop]. unfold f_read.
  destruct (take (Z.to_nat 32768) (drop (fpos w) f)) as [|b chunk]; [done|].
  rewrite run_bind. cbv zeta.
  by destruct (decrypt_chunk box (b :: chunk) _) as [[chunk'|e] w2].
Qed.

(** The loop on a file of bytes, from any position, with enough fuel: it
    ends without an exception, having appended to the output the rest of
    the file transformed with the position counted continuously. *)
Lemma dump_loop_spec fuel f box w out :
  length box = 256%nat → is_bytes box →
  is_bytes (drop (fpos w) f) → sink w = Some out →
  (length (drop (fpos w) f) < fuel)%nat →
  ∃ w',
    dump_loop fuel f box w = Some (Ok tt, w') ∧
    sink w' = Some (out ++ decrypt_continuous box (drop (fpos w) f)) ∧
    ∃ tr, trace w' = trace w ++ tr ∧ Forall lookup_in_bounds tr.
Proof.
  intros Hlen Hbox. revert w out.
  induction fuel as [|fuel IH]; intros w out Hf Hsink Hfuel; [lia|].
  rewrite dump_loop_unfold.
  set (rest := drop (fpos w) f) in *.
  destruct (take (Z.to_nat 32768) rest) as [|b chunk0] eqn:Hchunk.
  { assert (rest = []) as ->.
    { destruct rest; [done|].
      assert (Z.to_nat 32768 = S (Z.to_nat 32767)) as Heq by lia.
      rewrite Heq in Hchunk. discriminate Hchunk. }
    eexists. split; [done|]. simpl. rewrite app_nil_r. split; [done|].
    exists []. by rewrite app_nil_r. }
  set (chunk := b :: chunk0) in *. cbv zeta.
  assert (is_bytes chunk) as Hcb.
  { rewrite <-Hchunk. by apply Forall_take. }
  set (w1 := {| fpos := fpos w + length chunk; trace := trace w;
                sink := sink w |}).
  destruct (decrypt_chunk_spec box chunk w1) as (tr1 & -> & Htr1 & _);
    [done..|].
  assert (rest = chunk ++ drop (length chunk) rest) as Hsplit.
  { rewrite <-Hchunk at 1. rewrite <-(take_drop (Z.to_nat 32768) rest) at 1.
    f_equal. rewrite <-Hchunk, length_take.
    destruct (decide (Z.to_nat 32768 ≤ length rest)%nat).
    - by rewrite Nat.min_l.
    - rewrite Nat.min_r by lia. by rewrite !drop_ge by lia. }
  assert (drop (fpos w + length chunk) f = drop (length chunk) rest) as Hnext.
  { subst rest. by rewrite drop_drop. }
  set (w2 := (m_write (decrypt_continuous box chunk) (extend tr1 w1)).2).
  assert (fpos w2 = (fpos w + length chunk)%nat) as Hpos2 by done.
  assert (trace w2 = trace w ++ tr1) as Htrace2 by done.
  assert (sink w2 = Some (out ++ decrypt_continuous box chunk)) as Hsink2.
  { subst w2 w1. unfold m_write, extend. cbn [snd sink]. by rewrite Hsink. }
  assert (0 < length chunk)%nat as Hpos by (subst chunk; simpl; lia).
  assert (length chunk ≤ length rest)%nat as Hle
    by (rewrite <-Hchunk, length_take; lia).
  clearbody w2 chunk.
  destruct (IH w2 (out ++ decrypt_continuous box chunk))
    as (w' & Hrun & Hsink' & tr2 & Htr & Htr2).
  - rewrite Hpos2, Hnext. by apply Forall_drop.
  - done.
  - rewrite Hpos2, Hnext, length_drop. lia.
  - exists w'. split; [done|]. split.
    + rewrite Hsink', Hpos2, Hnext, <-app_assoc. do 2 f_equal.
      destruct (decide (length chunk = Z.to_nat 32768)) as [Hfull|Hshort].
      * transitivity (decrypt_continuous box (chunk ++ drop (length chunk) rest));
          [|by rewrite <-Hsplit].
        rewrite decrypt_continuous_app; [done|].
        rewrite Hfull. by rewrite Z2Nat.id by lia.
      * assert (drop (length chunk) rest = []) as Hend.
        { apply drop_ge. rewrite <-Hchunk, length_take in Hshort |- *. lia. }
        rewrite Hend in Hsplit |- *. rewrite app_nil_r in Hsplit |- *.
        by rewrite <-Hsplit.
    + exists (tr1 ++ tr2). split; [|by apply Forall_app].
      rewrite Htr, Htrace2. by rewrite app_assoc.
Qed.


(** ** Computations that leave the file alone *)

Lemma keeps_file_ret {A : Type} (a : A) : keeps_file (mret a).
Proof. by intros w r w' [= <- <-]. Qed.

Lemma keeps_file_lift {A : Type} (r : Result A) : keeps_file (lift r).
Proof. by intros w r' w' [= <- <-]. Qed.

Lemma keeps_file_emit e : keeps_file (emit e).
Proof. by intros w r w' [= <- <-]. Qed.

Lemma keeps_file_bind {A B : Type} (m : M A) (f : A → M B) :
  keeps_file m → (∀ a, keeps_file (f a)) → keeps_file (m ≫= f).
Proof.
  intros Hm Hf w r w'. rewrite run_bind.
  destruct (m w) as [[a|e] w1] eqn:Hmw.
  - intros Hfw. destruct (Hm _ _ _ Hmw) as [<- <-]. by eapply Hf.
  - intros [= <- <-]. by eapply Hm.
Qed.

Lemma keeps_file_for_M {A T : Type} (body : T → A → M T) xs s :
  (∀ s x, keeps_file (body s x)) → keeps_file (for_M body xs s).
Proof.
  intros Hbody. revert s. induction xs as [|x xs IH]; intros s; simpl.
  - apply keeps_file_ret.
  - apply keeps_file_bind; [apply Hbody | apply IH].
Qed.

Ltac keeps_file :=
  repeat first
    [ apply keeps_file_lift | apply keeps_file_emit | apply keeps_file_ret
    | apply keeps_file_bind; [|intros ?]
    | apply keeps_file_for_M; intros ? ? ].

Lemma keeps_file_decrypt_chunk box chunk : keeps_file (decrypt_chunk box chunk).
Proof. unfold decrypt_chunk, decrypt_byte, box_lookup. keeps_file. Qed.

Lemma keeps_file_key_box_of `{Library} key_data :
  keeps_file (key_box_of key_data).
Proof. unfold key_box_of. keeps_file. Qed.

Lemma keeps_file_meta_data_of `{Library} meta_data :
  keeps_file (meta_data_of meta_data).
Proof. unfold meta_data_of. keeps_file. Qed.

(** The loop reads only what lies at and after the position of [f]. *)
Lemma dump_loop_ext fuel f f' box w :
  drop (fpos w) f = drop (fpos w) f' →
  dump_loop fuel f box w = dump_loop fuel f' box w.
Proof.
  revert w. induction fuel as [|fuel IH]; intros w Heq; [done|].
  rewrite !dump_loop_unfold, <-Heq.
  destruct (take (Z.to_nat 32768) (drop (fpos w) f)) as [|b chunk]; [done|].
  cbv zeta.
  destruct (decrypt_chunk box (b :: chunk) _) as [[chunk'|e] w2] eqn:Hd;
    [|done].
  apply keeps_file_decrypt_chunk in Hd as [Hpos _].
  apply IH. unfold m_write. cbn [snd fpos] in *. rewrite Hpos.
  by rewrite <-!drop_drop, Heq.
Qed.

(** C7. For every 256-entry byte table and every payload of bytes, the
    loop of the source, which reads chunks of 32768 bytes and restarts the
    position at 1 in each, ends and writes what the transform with the
    position counted continuously over the whole payload gives. *)
Theorem chunked_equals_continuous (box f : bytes) (w : world) (out : bytes) :
  length box = 256%nat → is_bytes box →
  is_bytes (drop (fpos w) f) → sink w = Some out →
  ∃ w',
    dump_loop (S (length f)) f box w = Some (Ok tt, w') ∧
    sink w' = Some (out ++ decrypt_continuous box (drop (fpos w) f)).
Proof.
  intros Hlen Hbox Hf Hsink.
  destruct (dump_loop_spec (S (length f)) f box w out)
    as (w' & Hrun & Hsink' & _); [done..| |by exists w'].
  rewrite length_drop. lia.
Qed.

Lemma chunked_equals_continuous_witness :
  ∃ w',
    dump_loop 4 [7; 8; 9] (range 256) (m_open initial).2 = Some (Ok tt, w') ∧
    sink w' = Some ([] ++ decrypt_continuous (range 256) [7; 8; 9]).
Proof.
  apply (chunked_equals_continuous (range 256) [7; 8; 9] (m_open initial).2 []).
  - reflexivity.
  - apply is_bytes_range. lia.
  - repeat constructor; unfold is_byte; lia.
  - reflexivity.
Defined.

(** ** Padding *)

Lemma getitem_last s n : last s = Some n → getitem s (-1) = Ok n.
Proof.
  intros Hlast. unfold getitem, index_of.
  assert (0 < length s)%nat as Hlen.
  { destruct s; [discriminate|simpl; lia]. }
  rewrite bool_decide_eq_false_2 by lia.
  rewrite bool_decide_eq_true_2 by (unfold len; lia).
  rewrite Ok_bind. rewrite last_lookup in Hlast.
  replace (Z.to_nat (len s + -1)) with (pred (length s))
    by (unfold len; lia).
  by rewrite Hlast.
Qed.

(** [unpad] never looks at what the padding byte is worth: whatever the
    last byte [n] is, the last [n] bytes go, all of them when [n] is 0 or
    more than there are. *)
Lemma unpad_spec s n :
  last s = Some n → 0 ≤ n →
  unpad s =
    Ok (if bool_decide (n = 0) then [] else take (length s - Z.to_nat n) s).
Proof.
  intros Hlast Hn. unfold unpad. rewrite (getitem_last s n) by done.
  rewrite Ok_bind. f_equal. unfold slice. cbv zeta.
  assert (clamp (Z.of_nat (length s)) 0 = 0%nat) as ->
    by (unfold clamp; case_bool_decide; lia).
  assert (clamp (Z.of_nat (length s)) (- n) =
          if bool_decide (n = 0) then 0%nat
          else (length s - Z.to_nat n)%nat) as ->
    by (unfold clamp; repeat case_bool_decide; lia).
  rewrite drop_0, Nat.sub_0_r. by case_bool_decide.
Qed.

(** C3. A decrypted key blob that ends in the byte 17 goes through
    [unpad] and the rest of the key unwrapping without any exception, and
    one that ends in the byte 0 goes through [unpad] without one. *)
Lemma padding_not_validated :
  (∃ s, unpad (replicate 47 65 ++ [17]) = Ok s ∧ length s = 31%nat) ∧
  (∃ box, key_box_of_plain (replicate 47 65 ++ [17]) = Ok box) ∧
  unpad (replicate 47 65 ++ [0]) = Ok [].
Proof.
  split_and!.
  - eexists. split; [vm_compute; reflexivity | reflexivity].
  - eexists. vm_compute. reflexivity.
  - reflexivity.
Qed.

(** C3, amended. For every decrypted key blob whose final byte [n] is 0 or
    greater than 16, [unpad] raises nothing: it returns the empty bytes
    when [n] is 0 and the blob without its last [n] bytes (nothing of it
    when [n] is its length or more) otherwise. *)
Theorem unpad_bad_padding (s : bytes) (n : Z) :
  last s = Some n → is_byte n → n = 0 ∨ 16 < n →
  unpad s =
    Ok (if bool_decide (n = 0) then [] else take (length s - Z.to_nat n) s).
Proof. intros Hlast [Hn _] _. by apply unpad_spec. Qed.

Lemma unpad_bad_padding_witness :
  unpad [1; 2; 3; 4; 5; 6; 7; 8; 9; 10; 11; 12; 13; 14; 15; 16; 17; 18; 19; 17]
  = Ok [1; 2; 3].
Proof.
  apply (unpad_bad_padding
    [1; 2; 3; 4; 5; 6; 7; 8; 9; 10; 11; 12; 13; 14; 15; 16; 17; 18; 19; 17] 17).
  - reflexivity.
  - unfold is_byte. lia.
  - right. lia.
Defined.


(** ** Reading the container *)

(** A read of exactly the field that lies at the position. *)
Lemma f_read_at f pre s rest n p w :
  f = pre ++ s ++ rest → fpos w = length pre → Z.to_nat n = length s →
  p = (length pre + length s)%nat →
  f_read f n w = (Ok s, at_pos p w).
Proof.
  intros -> Hpos Hn ->. unfold f_read, at_pos. rewrite Hpos.
  rewrite drop_app_length, Hn, take_app_length. done.
Qed.

Lemma f_seek_at k p w :
  p = (fpos w + Z.to_nat k)%nat → f_seek k w = (Ok tt, at_pos p w).
Proof. by intros ->. Qed.

Lemma unpack_pack n : 0 ≤ n < 2 ^ 32 → unpack_I (pack_I n) = Ok n.
Proof.
  intros Hn. unfold unpack_I, pack_I. f_equal.
  change (2 ^ 32) with 4294967296 in Hn.
  Z.div_mod_to_equations. lia.
Qed.

Lemma unpack_4 s : length s = 4%nat → ∃ n, unpack_I s = Ok n.
Proof.
  intros Hs. destruct s as [|b0 [|b1 [|b2 [|b3 [|]]]]]; try discriminate.
  by eexists.
Qed.

Section Header.
Context `{Library}.

(** On the layout of section 6 the header phase reads every field where
    the layout puts it; neither the CRC32 field nor the cover-image size
    has a part in the result. *)
Lemma ncmdump_header_encode (x : container) :
  well_formed x → ncmdump_header (encode x) initial = header_result x.
Proof.
  intros (Hr2 & HK & HM & Hcrc & Hr5 & Hisz & _).
  destruct (unpack_4 _ Hcrc) as [crc Hcrc'].
  destruct (unpack_4 _ Hisz) as [isz Hisz'].
  unfold ncmdump_header, header_result. cbv zeta.
  set (K := length (key_blob x)). set (M := length (meta_blob x)).
  rewrite run_bind.
  erewrite (f_read_at (encode x) [] magic _ 8 8 initial);
    [|reflexivity..].
  rewrite run_bind. unfold assert_.
  rewrite bool_decide_eq_true_2 by done. rewrite run_lift.
  rewrite run_bind, (f_seek_at 2 10) by done.
  rewrite run_bind.
  erewrite (f_read_at (encode x) (magic ++ reserved2 x)
             (pack_I (len (key_blob x))) _ 4 14);
    [|unfold encode; by rewrite <-!app_assoc
     |rewrite length_app, Hr2; done|done
     |rewrite length_app, Hr2; done].
  rewrite run_bind, run_lift, unpack_pack by (unfold len in *; lia).
  rewrite run_bind.
  erewrite (f_read_at (encode x)
             (magic ++ reserved2 x ++ pack_I (len (key_blob x)))
             (key_blob x) _ (len (key_blob x)) (14 + K));
    [|unfold encode; by rewrite <-!app_assoc
     |rewrite !length_app, Hr2; done|unfold len; lia
     |rewrite !length_app, Hr2; done].
  rewrite run_bind.
  destruct (key_box_of (key_blob x) _) as [[box|e] w1] eqn:Hkb; [|done].
  apply keeps_file_key_box_of in Hkb as [Hp1 _].
  rewrite run_bind.
  erewrite (f_read_at (encode x)
             (magic ++ reserved2 x ++ pack_I (len (key_blob x))
                    ++ key_blob x)
             (pack_I (len (meta_blob x))) _ 4 (18 + K));
    [|unfold encode; by rewrite <-!app_assoc
     |rewrite Hp1, !length_app, Hr2; simpl; lia|done
     |rewrite !length_app, Hr2; simpl; lia].
  rewrite run_bind, run_lift, unpack_pack by (unfold len in *; lia).
  rewrite run_bind.
  erewrite (f_read_at (encode x)
             (magic ++ reserved2 x ++ pack_I (len (key_blob x))
                    ++ key_blob x ++ pack_I (len (meta_blob x)))
             (meta_blob x) _ (len (meta_blob x)) (18 + K + M));
    [|unfold encode; by rewrite <-!app_assoc
     |rewrite !length_app, Hr2; simpl; lia|unfold len; lia
     |rewrite !length_app, Hr2; simpl; lia].
  rewrite run_bind.
  destruct (meta_data_of (meta_blob x) _) as [[meta|e] w2] eqn:Hmd; [|done].
  apply keeps_file_meta_data_of in Hmd as [Hp2 _].
  rewrite run_bind.
  erewrite (f_read_at (encode x)
             (magic ++ reserved2 x ++ pack_I (len (key_blob x))
                    ++ key_blob x ++ pack_I (len (meta_blob x))
                    ++ meta_blob x)
             (crc32 x) _ 4 (22 + K + M));
    [|unfold encode; by rewrite <-!app_assoc
     |rewrite Hp2, !length_app, Hr2; simpl; lia|by rewrite Hcrc
     |rewrite !length_app, Hr2, Hcrc; simpl; lia].
  rewrite run_bind, run_lift, Hcrc'.
  rewrite run_bind, (f_seek_at 5 (27 + K + M)) by (simpl; lia).
  rewrite run_bind.
  erewrite (f_read_at (encode x)
             (magic ++ reserved2 x ++ pack_I (len (key_blob x))
                    ++ key_blob x ++ pack_I (len (meta_blob x))
                    ++ meta_blob x ++ crc32 x ++ reserved5 x)
             (image_size x) _ 4 (31 + K + M));
    [|unfold encode; by rewrite <-!app_assoc
     |rewrite !length_app, Hr2, Hcrc, Hr5; simpl; lia|by rewrite Hisz
     |rewrite !length_app, Hr2, Hcrc, Hr5, Hisz; simpl; lia].
  rewrite run_bind, run_lift, Hisz'.
  rewrite run_bind, run_lift.
  by destruct (format_of meta).
Qed.
End Header.


(** ** The whole decoder *)

Lemma run_bind_Ok {A B : Type} (m : M A) (f : A → M B) w b w' :
  (m ≫= f) w = (Ok b, w') → ∃ a w1, m w = (Ok a, w1) ∧ f a w1 = (Ok b, w').
Proof.
  rewrite run_bind. destruct (m w) as [[a|e] w1]; [eauto | discriminate].
Qed.

Lemma length_encode x :
  length (encode x) =
    (8 + length (reserved2 x) + 4 + length (key_blob x) + 4
     + length (meta_blob x) + length (crc32 x) + length (reserved5 x)
     + length (image_size x) + length (payload x))%nat.
Proof. unfold encode. rewrite !length_app. simpl. lia. Qed.

Lemma drop_encode x :
  well_formed x →
  drop (31 + length (key_blob x) + length (meta_blob x)) (encode x) = payload x.
Proof.
  intros (Hr2 & _ & _ & Hcrc & Hr5 & Hisz & _). unfold encode.
  rewrite !(app_assoc _ _ (payload x)).
  apply drop_app_length'. rewrite !length_app, Hr2, Hcrc, Hr5, Hisz.
  simpl. lia.
Qed.

Section Decode.
Context `{Library}.

Lemma key_box_of_perm key_data w box w' :
  key_box_of key_data w = (Ok box, w') → box ≡ₚ range 256.
Proof.
  unfold key_box_of. intros Hrun.
  repeat (apply run_bind_Ok in Hrun as (? & ? & _ & Hrun)).
  unfold lift, key_box_of_plain in Hrun. injection Hrun as Hrun _.
  apply bind_Ok in Hrun as (? & _ & Hrun).
  by eapply build_key_box_perm.
Qed.

(** Whatever the file, a header phase that succeeds leaves a key box
    that is a permutation of 0..255. *)
Lemma ncmdump_header_box f box format w :
  ncmdump_header f initial = (Ok (box, format), w) → box ≡ₚ range 256.
Proof.
  unfold ncmdump_header. intros Hrun.
  do 6 (apply run_bind_Ok in Hrun as (? & ? & _ & Hrun)).
  apply run_bind_Ok in Hrun as (box' & ? & Hbox & Hrun).
  repeat (apply run_bind_Ok in Hrun as (? & ? & _ & Hrun)).
  injection Hrun as -> _ _. by eapply key_box_of_perm.
Qed.

(** The decoder ends on every file of bytes: the fuel given to the chunk
    loop is never used up. *)
Lemma ncmdump_terminates f : is_bytes f → ∃ r, ncmdump f = Some r.
Proof.
  intros Hf. unfold ncmdump.
  destruct (ncmdump_header f initial) as [[[box format]|e] w] eqn:Hh;
    [|eauto].
  apply ncmdump_header_box, perm_range_bytes in Hh as [Hlen Hbox].
  destruct (dump_loop_spec (S (length f)) f box (m_open w).2 [])
    as (w' & -> & _); [done|done|by apply Forall_drop|done| |eauto].
  rewrite length_drop. lia.
Qed.

Lemma header_result_Ok x box format w :
  header_result x = (Ok (box, format), w) →
  fpos w = (31 + length (key_blob x) + length (meta_blob x))%nat ∧
  box ≡ₚ range 256.
Proof.
  unfold header_result. cbv zeta.
  destruct (key_box_of _ _) as [[box'|e] w1] eqn:Hkb; [|discriminate].
  destruct (meta_data_of _ _) as [[meta|e] w2]; [|discriminate].
  destruct (format_of meta); [|discriminate].
  intros [= -> _ <-]. split; [done|]. by eapply key_box_of_perm.
Qed.

(** A well-formed container whose header phase succeeds: the chunk loop
    starts at offset 31 + K + M and the decoder writes the transform of
    everything from there on. *)
Lemma ncmdump_encode x box format w :
  well_formed x →
  ncmdump_header (encode x) initial = (Ok (box, format), w) →
  ∃ w', ncmdump (encode x) = Some (Ok format, w') ∧
        sink w' = Some (decrypt_continuous box (payload x)).
Proof.
  intros Hwf Hh. unfold ncmdump. rewrite Hh.
  rewrite ncmdump_header_encode in Hh by done.
  apply header_result_Ok in Hh as [Hpos Hperm].
  apply perm_range_bytes in Hperm as [Hlen Hbox].
  destruct (dump_loop_spec (S (length (encode x))) (encode x) box
              (m_open w).2 [])
    as (w' & -> & Hsink & _); [done|done| |done| |].
  - cbn [m_open snd fpos]. rewrite Hpos, drop_encode by done. apply Hwf.
  - rewrite length_drop. lia.
  - exists w'. split; [done|]. rewrite Hsink. cbn [m_open snd fpos].
    by rewrite Hpos, drop_encode.
Qed.

(** C4. For every well-formed container whose header phase succeeds, the
    file position after the cover-image-size field is read is
    31 + K + M, the bytes from there on are the payload, and the decoder
    writes their transform; it does so whatever four bytes the
    cover-image-size field holds. *)
Theorem payload_follows_image_size (x : container) box format w :
  well_formed x →
  ncmdump_header (encode x) initial = (Ok (box, format), w) →
  fpos w = (31 + length (key_blob x) + length (meta_blob x))%nat ∧
  drop (fpos w) (encode x) = payload x ∧
  (∃ w', ncmdump (encode x) = Some (Ok format, w') ∧
         sink w' = Some (decrypt_continuous box (payload x))) ∧
  (∀ v, length v = 4%nat →
     ∃ w', ncmdump (encode (with_image_size v x)) = Some (Ok format, w') ∧
           sink w' = Some (decrypt_continuous box (payload x))).
Proof.
  intros Hwf Hh.
  pose proof Hh as Hres. rewrite ncmdump_header_encode in Hres by done.
  destruct (header_result_Ok _ _ _ _ Hres) as [Hpos _].
  split_and!;
    [done|by rewrite Hpos, drop_encode|by eapply ncmdump_encode|].
  intros v Hv.
  assert (well_formed (with_image_size v x)) as Hwf'.
  { destruct Hwf as (? & ? & ? & ? & ? & ? & ?). by repeat split. }
  apply (ncmdump_encode (with_image_size v x) box format w Hwf').
  by rewrite ncmdump_header_encode.
Qed.

(** C6. For every file whose first 8 bytes are not the magic constant,
    the decoder raises the assertion error of line 41 with no cipher
    work done and no output opened: only the 8-byte read has happened. *)
Theorem bad_magic_fails_first (f : bytes) :
  take 8 f ≠ magic →
  ncmdump f =
    Some (Raise AssertionError,
          {| fpos := length (take 8 f); trace := []; sink := None |}).
Proof.
  intros Hmagic. unfold ncmdump, ncmdump_header.
  rewrite run_bind. unfold f_read at 1. cbn [fpos initial drop].
  change (Z.to_nat 8) with 8%nat.
  rewrite run_bind. unfold assert_.
  rewrite bool_decide_eq_false_2 by done. done.
Qed.

(** C8. Two well-formed containers that differ only in the four bytes of
    the CRC32 field decode alike: same result, same bytes written, same
    final world. *)
Theorem crc32_ignored (x : container) (v : bytes) :
  well_formed x → length v = 4%nat →
  ncmdump (encode (with_crc32 v x)) = ncmdump (encode x).
Proof.
  intros Hwf Hv.
  assert (well_formed (with_crc32 v x)) as Hwf'.
  { destruct Hwf as (? & ? & ? & ? & ? & ? & ?). by repeat split. }
  assert (length (encode (with_crc32 v x)) = length (encode x)) as Hlen.
  { rewrite !length_encode. simpl. destruct Hwf as (_ & _ & _ & -> & _). lia. }
  unfold ncmdump. rewrite !ncmdump_header_encode by done.
  change (header_result (with_crc32 v x)) with (header_result x).
  destruct (header_result x) as [[[box format]|e] w] eqn:Hres; [|done].
  apply header_result_Ok in Hres as [Hpos _].
  rewrite Hlen.
  rewrite (dump_loop_ext _ (encode (with_crc32 v x)) (encode x)); [done|].
  cbn [m_open snd fpos]. rewrite Hpos.
  rewrite (drop_encode x) by done. exact (drop_encode (with_crc32 v x) Hwf').
Qed.

(** C9. For every well-formed container whose header phase succeeds and
    whose payload is empty, the decoder returns normally and has written
    zero bytes. *)
Theorem empty_payload (x : container) box format w :
  well_formed x → payload x = [] →
  ncmdump_header (encode x) initial = (Ok (box, format), w) →
  ∃ w', ncmdump (encode x) = Some (Ok format, w') ∧ sink w' = Some [].
Proof.
  intros Hwf Hempty Hh.
  destruct (ncmdump_encode x box format w Hwf Hh) as (w' & Hrun & Hsink).
  exists w'. split; [done|]. by rewrite Hsink, Hempty.
Qed.
End Decode.

(** ** Instances on the toy library *)

Lemma toy_well_formed s : is_bytes s → well_formed (toy_container s).
Proof.
  intros Hs. unfold well_formed, len. simpl. repeat split; (done || lia).
Qed.

Lemma toy_header s :
  is_bytes s →
  @ncmdump_header toy_library (encode (toy_container s)) initial
  = (Ok (toy_box, [109; 112; 51]), toy_world).
Proof.
  intros Hs. rewrite ncmdump_header_encode by by apply toy_well_formed.
  vm_compute. reflexivity.
Qed.

Lemma payload_follows_image_size_witness :
  ∃ w', @ncmdump toy_library (encode (toy_container [1; 2; 3]))
        = Some (Ok [109; 112; 51], w') ∧
        sink w' = Some [138; 216; 28].
Proof.
  assert (is_bytes [1; 2; 3]) as Hs
    by (repeat constructor; unfold is_byte; lia).
  destruct (payload_follows_image_size (toy_container [1; 2; 3])
              toy_box [109; 112; 51] toy_world
              (toy_well_formed _ Hs) (toy_header _ Hs))
    as (_ & _ & (w' & Hrun & Hsink) & _).
  exists w'. split; [exact Hrun|]. rewrite Hsink. vm_compute. reflexivity.
Defined.

Lemma bad_magic_fails_first_witness :
  @ncmdump toy_library (replicate 40 0) =
    Some (Raise AssertionError, {| fpos := 8; trace := []; sink := None |}).
Proof.
  apply (bad_magic_fails_first (replicate 40 0)). vm_compute. discriminate.
Defined.

Lemma crc32_ignored_witness :
  @ncmdump toy_library
     (encode (with_crc32 [255; 255; 255; 255] (toy_container [1; 2; 3])))
  = @ncmdump toy_library (encode (toy_container [1; 2; 3])).
Proof.
  apply (crc32_ignored (toy_container [1; 2; 3]) [255; 255; 255; 255]).
  - apply toy_well_formed. repeat constructor; unfold is_byte; lia.
  - reflexivity.
Defined.

Lemma empty_payload_witness :
  ∃ w', @ncmdump toy_library (encode (toy_container []))
        = Some (Ok [109; 112; 51], w') ∧ sink w' = Some [].
Proof.
  apply (empty_payload (toy_container []) toy_box [109; 112; 51] toy_world).
  - apply toy_well_formed. constructor.
  - reflexivity.
  - apply toy_header. constructor.
Defined.

(** * Further properties *)

(** ** Padding and unmasking *)

(** X1. [unpad] undoes padding: for every byte string [s] and every
    padding length [n] of at least 1, [unpad] of [s] followed by [n] bytes
    of value [n] is [s]. *)
Theorem unpad_pad (s : bytes) (n : Z) :
  1 ≤ n → unpad (s ++ replicate (Z.to_nat n) n) = Ok s.
Proof.
  intros Hn. rewrite (unpad_spec _ n); [| |lia].
  - rewrite bool_decide_eq_false_2 by lia. f_equal.
    rewrite length_app, length_replicate.
    replace (length s + Z.to_nat n - Z.to_nat n)%nat with (length s) by lia.
    by rewrite take_app_length.
  - destruct (Z.to_nat n) as [|k] eqn:Hk; [lia|].
    by rewrite replicate_S_end, app_assoc, last_snoc.
Qed.

Lemma unpad_pad_witness : unpad ([104; 105] ++ replicate 3 3) = Ok [104; 105].
Proof. apply (unpad_pad [104; 105] 3). lia. Defined.

(** X2. On a byte string [unpad] raises only when the string is empty,
    and then it is an [IndexError]; on every other byte string it returns
    a strictly shorter prefix of it. *)
Theorem unpad_shortens (s : bytes) :
  is_bytes s →
  match unpad s with
  | Ok r => r `prefix_of` s ∧ (length r < length s)%nat
  | Raise e => e = IndexError ∧ s = []
  end.
Proof.
  intros Hs. destruct (last s) as [n|] eqn:Hlast.
  - assert (is_byte n) as [Hn _].
    { eapply Forall_forall; [exact Hs|]. by apply last_Some_elem_of. }
    rewrite (unpad_spec s n) by done.
    assert (0 < length s)%nat by (destruct s; [discriminate|simpl; lia]).
    case_bool_decide.
    + split; [apply prefix_nil | simpl; lia].
    + split; [apply prefix_take | rewrite length_take; lia].
  - apply last_None in Hlast as ->. done.
Qed.

Lemma unpad_shortens_witness :
  match unpad [7; 7; 2; 2] with
  | Ok r => r `prefix_of` [7; 7; 2; 2] ∧ (length r < 4)%nat
  | Raise e => e = IndexError ∧ [7; 7; 2; 2] = @nil Z
  end.
Proof.
  apply (unpad_shortens [7; 7; 2; 2]).
  repeat constructor; unfold is_byte; lia.
Defined.

(** A loop in [Result] whose body cannot raise and takes the invariant
    [I k] to [I (k + 1)] at item [k] runs to its end. *)
Lemma for_each_inv_idx {A T : Type} (I : nat → T → Prop)
    (body : T → A → Result T) xs s :
  I 0%nat s →
  (∀ k x s, xs !! k = Some x → I k s → ∃ s', body s x = Ok s' ∧ I (S k) s') →
  ∃ s', for_each body xs s = Ok s' ∧ I (length xs) s'.
Proof.
  revert I s. induction xs as [|x xs IH]; intros I s H0 Hstep; simpl.
  - by exists s.
  - destruct (Hstep 0%nat x s) as (s1 & -> & H1); [done..|].
    rewrite Ok_bind. apply (IH (λ k, I (S k))); [done|].
    intros k y s2 Hy. by apply Hstep.
Qed.

(** Writing entry [k] of [out] over entry [k] of a list that is [out] up
    to [k] and [a] from [k] on moves the border by one. *)
Lemma insert_border (out a : list Z) k y :
  out !! k = Some y → length out = length a →
  <[k:=y]> (take k out ++ drop k a) = take (S k) out ++ drop (S k) a.
Proof.
  intros Hy Hlen.
  assert (k < length a)%nat as Hk by (apply lookup_lt_Some in Hy; lia).
  destruct (lookup_lt_is_Some_2 a k Hk) as [x Hx].
  rewrite insert_app_r_alt by (rewrite length_take; lia).
  rewrite length_take.
  replace (k - k `min` length out)%nat with 0%nat by lia.
  rewrite (drop_S a x k) by done. simpl.
  rewrite (take_S_r out k y) by done. by rewrite <-app_assoc.
Qed.

Lemma xor_mask_spec mask a :
  is_byte mask → is_bytes a →
  xor_mask mask a = Ok ((λ x, Z.lxor x mask) <$> a).
Proof.
  intros Hmask Ha. unfold xor_mask.
  set (out := (λ x, Z.lxor x mask) <$> a).
  assert (length out = length a) as Hout by apply length_fmap.
  destruct (for_each_inv_idx
    (λ k s, s = take k out ++ drop k a)
    (λ a i, x ← getitem a i; setitem a i (Z.lxor x mask))
    (range2 0 (len a)) a) as (s' & -> & ->).
  - done.
  - intros k i s Hi ->. unfold range2 in Hi.
    apply lookup_seqZ in Hi as [-> Hk].
    assert (k < length a)%nat as Hk' by (unfold len in Hk; lia).
    destruct (lookup_lt_is_Some_2 a k Hk') as [x Hx].
    assert (len (take k out ++ drop k a) = len a) as Hl.
    { unfold len. rewrite length_app, length_take, length_drop. lia. }
    destruct (getitem_nonneg (take k out ++ drop k a) (0 + Z.of_nat k))
      as (x' & -> & Hx'); [lia|].
    rewrite Ok_bind.
    replace (Z.to_nat (0 + Z.of_nat k)) with k in Hx' by lia.
    rewrite lookup_app_r, length_take, lookup_drop in Hx'
      by (rewrite length_take; lia).
    replace (k + (k - k `min` length out))%nat with k in Hx' by lia.
    assert (x' = x) as -> by congruence.
    rewrite setitem_nonneg;
      [|lia|apply is_byte_lxor; [by eapply is_bytes_lookup|done]].
    eexists. split; [done|].
    replace (Z.to_nat (0 + Z.of_nat k)) with k by lia.
    apply insert_border; [|done].
    subst out. by rewrite list_lookup_fmap, Hx.
  - f_equal. unfold range2. rewrite length_seqZ.
    replace (Z.to_nat (len a - 0)) with (length a) by (unfold len; lia).
    rewrite take_ge, drop_ge by lia. by rewrite app_nil_r.
Qed.

(** X3. The unmasking loop on a byte string, with a byte for mask, never
    raises: it XORs every byte with the mask, and run a second time with
    the same mask it gives the string back. *)
Theorem xor_mask_involution (mask : Z) (a : bytes) :
  is_byte mask → is_bytes a →
  ∃ b, xor_mask mask a = Ok b ∧ b = (λ x, Z.lxor x mask) <$> a ∧
       xor_mask mask b = Ok a.
Proof.
  intros Hmask Ha. eexists. split; [by apply xor_mask_spec|]. split; [done|].
  rewrite xor_mask_spec; [|done|].
  - f_equal. rewrite <-list_fmap_compose. rewrite <-(list_fmap_id a) at 2.
    apply list_fmap_ext. intros _ x _. simpl. apply lxor_twice.
  - apply Forall_fmap. eapply Forall_impl; [exact Ha|].
    intros x Hx. by apply is_byte_lxor.
Qed.

Lemma xor_mask_involution_witness :
  ∃ b, xor_mask 0x64 [0; 100; 255] = Ok b ∧
       b = (λ x, Z.lxor x 0x64) <$> [0; 100; 255] ∧
       xor_mask 0x64 b = Ok [0; 100; 255].
Proof.
  apply (xor_mask_involution 0x64 [0; 100; 255]).
  - unfold is_byte. lia.
  - repeat constructor; unfold is_byte; lia.
Defined.

(** ** The seed key *)

Lemma build_key_box_empty : build_key_box [] = Raise IndexError.
Proof. vm_compute. reflexivity. Qed.

(** X4. A decrypted key blob that leaves no seed key (the padding byte is
    0, or at most 17 bytes stay once the padding is off) makes the
    scheduling loop raise [IndexError] at its first iteration. *)
Theorem empty_seed_key_raises (plain : bytes) (n : Z) :
  last plain = Some n → is_byte n →
  n = 0 ∨ (length plain ≤ 17 + Z.to_nat n)%nat →
  key_box_of_plain plain = Raise IndexError.
Proof.
  intros Hlast [Hn _] Hshort. unfold key_box_of_plain.
  rewrite (unpad_spec plain n) by done. rewrite Ok_bind. cbv zeta.
  set (r := if bool_decide (n = 0) then [] else take _ plain).
  assert (length r ≤ 17)%nat as Hr.
  { subst r. case_bool_decide; [simpl; lia|].
    rewrite length_take. destruct Hshort; lia. }
  assert (slice_from r 17 = []) as ->; [|apply build_key_box_empty].
  unfold slice_from, clamp. rewrite bool_decide_eq_false_2 by lia.
  apply drop_ge. lia.
Qed.

Lemma empty_seed_key_raises_witness :
  key_box_of_plain (replicate 17 110 ++ replicate 15 15) = Raise IndexError.
Proof.
  apply (empty_seed_key_raises (replicate 17 110 ++ replicate 15 15) 15).
  - reflexivity.
  - unfold is_byte. lia.
  - right. simpl. lia.
Defined.

Lemma offset_wraps L m :
  0 < L → 0 ≤ m →
  (if bool_decide (L ≤ m mod L + 1) then 0 else m mod L + 1) = (m + 1) mod L.
Proof.
  intros HL Hm. pose proof (Z.mod_pos_bound m L HL) as Hb.
  case_bool_decide as Hc.
  - assert (m mod L = L - 1) as Heq by lia.
    rewrite <-Zplus_mod_idemp_l, Heq.
    replace (L - 1 + 1) with (1 * L) by lia. by rewrite Z.mod_mul by lia.
  - rewrite <-Zplus_mod_idemp_l. by rewrite (Z.mod_small (m mod L + 1)) by lia.
Qed.

(** An iteration reads the key only at its offset: two states with the
    same box and accumulator, over keys that hold the same byte at their
    offsets, step alike. *)
Lemma ks_step_same_byte k1 k2 st1 st2 i st1' :
  key_box st1 = key_box st2 → last_byte st1 = last_byte st2 →
  getitem k1 (key_offset st1) = getitem k2 (key_offset st2) →
  ks_step k1 (len k1) st1 i = Ok st1' →
  ∃ st2', ks_step k2 (len k2) st2 i = Ok st2' ∧
    key_box st1' = key_box st2' ∧ last_byte st1' = last_byte st2' ∧
    key_offset st1' =
      (if bool_decide (len k1 ≤ key_offset st1 + 1) then 0
       else key_offset st1 + 1) ∧
    key_offset st2' =
      (if bool_decide (len k2 ≤ key_offset st2 + 1) then 0
       else key_offset st2 + 1).
Proof.
  intros Hbox Hlast Hkey. unfold ks_step.
  rewrite <-Hbox, <-Hlast, <-Hkey.
  intros (swap & -> & H1)%bind_Ok.
  apply bind_Ok in H1 as (k & -> & H2). rewrite !Ok_bind. cbv zeta in *.
  apply bind_Ok in H2 as (v & -> & H3). rewrite Ok_bind.
  apply bind_Ok in H3 as (box1 & -> & H4). rewrite Ok_bind.
  apply bind_Ok in H4 as (box2 & -> & H5). rewrite Ok_bind.
  injection H5 as <-. eexists. split; [done|]. by simpl.
Qed.

Lemma ks_run_0 key_data : ks_run key_data 0 = Ok ks_init.
Proof. done. Qed.

(** Two non-empty keys that hold the same byte at index [i mod length]
    for every iteration [i] take the loop through the same boxes. *)
Lemma ks_run_same_cycle k1 k2 (m : nat) st1 :
  0 < len k1 → 0 < len k2 →
  (∀ i, 0 ≤ i < 256 →
     k1 !! Z.to_nat (i mod len k1) = k2 !! Z.to_nat (i mod len k2)) →
  (m ≤ 256)%nat →
  ks_run k1 (Z.of_nat m) = Ok st1 →
  ∃ st2, ks_run k2 (Z.of_nat m) = Ok st2 ∧
    key_box st1 = key_box st2 ∧ last_byte st1 = last_byte st2 ∧
    key_offset st1 = Z.of_nat m mod len k1 ∧
    key_offset st2 = Z.of_nat m mod len k2.
Proof.
  intros H1 H2 Hcycle. revert st1.
  induction m as [|m IH]; intros st1 Hm Hrun.
  - rewrite ks_run_0 in Hrun. injection Hrun as <-.
    exists ks_init. rewrite ks_run_0, !Z.mod_0_l by lia. done.
  - rewrite Nat2Z.inj_succ, <-Z.add_1_r in Hrun |- *.
    rewrite ks_run_succ in Hrun |- * by lia.
    apply bind_Ok in Hrun as (st & Hst & Hstep).
    destruct (IH st) as (st2 & -> & Hbox & Hlast & Ho1 & Ho2); [lia|done|].
    rewrite Ok_bind.
    pose proof (Z.mod_pos_bound (Z.of_nat m) (len k1) H1) as Hb1.
    pose proof (Z.mod_pos_bound (Z.of_nat m) (len k2) H2) as Hb2.
    destruct (ks_step_same_byte k1 k2 st st2 (Z.of_nat m) st1)
      as (st2' & -> & ? & ? & Ho1' & Ho2'); [done|done| |done|].
    { destruct (getitem_nonneg k1 (key_offset st)) as (x & -> & Hx); [lia|].
      destruct (getitem_nonneg k2 (key_offset st2)) as (y & -> & Hy); [lia|].
      rewrite Ho1 in Hx. rewrite Ho2 in Hy.
      rewrite Hcycle in Hx by lia. congruence. }
    exists st2'. split_and!; [done..| |].
    + rewrite Ho1', Ho1. apply offset_wraps; lia.
    + rewrite Ho2', Ho2. apply offset_wraps; lia.
Qed.

(** X5. The scheduling loop reads the seed key cyclically and only 256
    times: two non-empty keys that hold the same byte at index
    [i mod length] for every [i] below 256 (a key and its repetition, or
    two keys of 256 bytes or more with the same first 256 bytes) give the
    same key box. *)
Theorem key_box_same_cycle (k1 k2 : bytes) :
  k1 ≠ [] → k2 ≠ [] →
  (∀ i, 0 ≤ i < 256 →
     k1 !! Z.to_nat (i mod len k1) = k2 !! Z.to_nat (i mod len k2)) →
  build_key_box k1 = build_key_box k2.
Proof.
  intros Hk1 Hk2 Hcycle.
  assert (0 < len k1) as H1 by (destruct k1; [done|unfold len; simpl; lia]).
  assert (0 < len k2) as H2 by (destruct k2; [done|unfold len; simpl; lia]).
  destruct (ks_run_total k1 256) as (st1 & Hst1 & _); [done|lia|].
  destruct (ks_run_same_cycle k1 k2 256 st1) as (st2 & Hst2 & Hbox & _);
    [done..|lia|done|].
  unfold build_key_box. change (Z.of_nat 256) with 256 in Hst2.
  by rewrite Hst1, Hst2, !Ok_bind, Hbox.
Qed.

Lemma key_box_same_cycle_witness :
  build_key_box [65; 66] = build_key_box [65; 66; 65; 66].
Proof.
  apply (key_box_same_cycle [65; 66] [65; 66; 65; 66]); [done..|].
  intros i Hi. change (len [65; 66]) with 2.
  change (len [65; 66; 65; 66]) with 4.
  assert (i mod 4 = 0 ∧ i mod 2 = 0 ∨ i mod 4 = 1 ∧ i mod 2 = 1 ∨
          i mod 4 = 2 ∧ i mod 2 = 0 ∨ i mod 4 = 3 ∧ i mod 2 = 1) as Hcases
    by (Z.div_mod_to_equations; lia).
  destruct Hcases as [[H4 H2]|[[H4 H2]|[[H4 H2]|[H4 H2]]]];
    rewrite H4, H2; reflexivity.
Defined.

(** ** The keystream *)

Lemma lxor_cancel x y k : Z.lxor (Z.lxor x k) (Z.lxor y k) = Z.lxor x y.
Proof.
  rewrite (Z.lxor_comm y k), Z.lxor_assoc, <-(Z.lxor_assoc k k y).
  by rewrite Z.lxor_nilpotent, Z.lxor_0_l.
Qed.

(** X6. The keystream has period 256 over the whole payload: in what the
    chunk loop writes for a file of bytes, two bytes that lie 256
    positions apart differ (XOR) exactly as the two input bytes do. *)
Theorem keystream_repeats (box f : bytes) (w' : world) (out : bytes)
    (k : nat) (x y : Z) :
  length box = 256%nat → is_bytes box → is_bytes f →
  dump_loop (S (length f)) f box (m_open initial).2 = Some (Ok tt, w') →
  sink w' = Some out →
  f !! k = Some x → f !! (k + 256)%nat = Some y →
  ∃ x' y', out !! k = Some x' ∧ out !! (k + 256)%nat = Some y' ∧
           Z.lxor x' y' = Z.lxor x y.
Proof.
  intros Hlen Hbox Hf Hrun Hsink Hx Hy.
  destruct (dump_loop_spec (S (length f)) f box (m_open initial).2 [])
    as (w2 & Hrun2 & Hsink2 & _);
    [exact Hlen|exact Hbox|exact Hf|reflexivity|rewrite length_drop; lia|].
  rewrite Hrun in Hrun2. injection Hrun2 as <-.
  rewrite Hsink in Hsink2. injection Hsink2 as ->.
  rewrite drop_0. unfold decrypt_continuous.
  eexists _, _. rewrite !list_lookup_imap, Hx, Hy. simpl.
  split; [done|]. split; [done|].
  rewrite (keystream_byte_periodic box (Z.of_nat (k + 256) + 1)
             (Z.of_nat k + 1)).
  - apply lxor_cancel.
  - rewrite Nat2Z.inj_add.
    replace (Z.of_nat k + Z.of_nat 256 + 1)
      with (Z.of_nat k + 1 + 1 * 256) by lia.
    by rewrite Z.mod_add by lia.
Qed.

Lemma keystream_repeats_witness :
  ∃ x' y',
    decrypt_continuous toy_box (replicate 300 7) !! 3%nat = Some x' ∧
    decrypt_continuous toy_box (replicate 300 7) !! 259%nat = Some y' ∧
    Z.lxor x' y' = Z.lxor 7 7.
Proof.
  assert (length toy_box = 256%nat) as Hlen by reflexivity.
  assert (is_bytes toy_box) as Hbox.
  { apply perm_range_bytes, (build_key_box_perm [65]). reflexivity. }
  assert (is_bytes (replicate 300 7)) as Hf.
  { apply Forall_replicate. unfold is_byte. lia. }
  destruct (dump_loop_spec (S (length (replicate 300 7))) (replicate 300 7)
              toy_box (m_open initial).2 [])
    as (w' & Hrun & Hsink & _);
    [exact Hlen|exact Hbox|exact Hf|reflexivity|rewrite length_drop; lia|].
  apply (keystream_repeats toy_box (replicate 300 7) w' _ 3 7 7
           Hlen Hbox Hf Hrun Hsink); reflexivity.
Defined.

(** X7. The chunk loop is its own inverse on files of any length: run on
    a file of bytes and then on the file it wrote, with the same key box,
    it writes the first file again. *)
Theorem stream_involution (box f : bytes) :
  length box = 256%nat → is_bytes box → is_bytes f →
  ∃ out w1 w2,
    dump_loop (S (length f)) f box (m_open initial).2 = Some (Ok tt, w1) ∧
    sink w1 = Some out ∧ length out = length f ∧
    dump_loop (S (length out)) out box (m_open initial).2 = Some (Ok tt, w2) ∧
    sink w2 = Some f.
Proof.
  intros Hlen Hbox Hf.
  destruct (dump_loop_spec (S (length f)) f box (m_open initial).2 [])
    as (w1 & Hrun1 & Hsink1 & _);
    [exact Hlen|exact Hbox|exact Hf|reflexivity|rewrite length_drop; lia|].
  change (fpos (m_open initial).2) with 0%nat in Hsink1.
  rewrite drop_0, app_nil_l in Hsink1.
  set (out := decrypt_continuous box f) in *.
  assert (is_bytes out) as Hout by by apply is_bytes_decrypt_continuous.
  destruct (dump_loop_spec (S (length out)) out box (m_open initial).2 [])
    as (w2 & Hrun2 & Hsink2 & _);
    [exact Hlen|exact Hbox|exact Hout|reflexivity|rewrite length_drop; lia|].
  change (fpos (m_open initial).2) with 0%nat in Hsink2.
  rewrite drop_0, app_nil_l in Hsink2.
  exists out, w1, w2. split_and!; [done..|apply length_decrypt_continuous|done|].
  subst out. by rewrite decrypt_continuous_twice in Hsink2.
Qed.

Lemma stream_involution_witness :
  ∃ out w1 w2,
    dump_loop 4 [1; 2; 3] toy_box (m_open initial).2 = Some (Ok tt, w1) ∧
    sink w1 = Some out ∧ length out = 3%nat ∧
    dump_loop (S (length out)) out toy_box (m_open initial).2
      = Some (Ok tt, w2) ∧
    sink w2 = Some [1; 2; 3].
Proof.
  apply (stream_involution toy_box [1; 2; 3]).
  - reflexivity.
  - apply perm_range_bytes, (build_key_box_perm [65]). reflexivity.
  - repeat constructor; unfold is_byte; lia.
Defined.

(** ** Outcomes of the decoder *)









Lemma unpack_I_short s : length s ≠ 4%nat → unpack_I s = Raise StructError.
Proof. by destruct s as [|? [|? [|? [|? [|]]]]]. Qed.

(** X9. A file that has the magic constant and ends before the
    key-length field is complete (fewer than 14 bytes in all) makes the
    decoder raise [struct.error], before any cipher work and with no
    output opened. *)
Theorem truncated_key_length `{Library} (r : bytes) :
  (length r < 6)%nat →
  ∃ w, ncmdump (magic ++ r) = Some (Raise StructError, w) ∧
       trace w = [] ∧ sink w = None.
Proof.
  intros Hr. unfold ncmdump, ncmdump_header.
  rewrite run_bind.
  rewrite (f_read_at (magic ++ r) [] magic r 8 8 initial) by done.
  rewrite run_bind. unfold assert_.
  rewrite bool_decide_eq_true_2 by done. rewrite run_lift.
  rewrite run_bind, (f_seek_at 2 10) by done.
  rewrite run_bind. unfold f_read at 1. cbv zeta.
  rewrite run_bind, run_lift.
  rewrite unpack_I_short; [by eexists|].
  rewrite length_take, length_drop, length_app.
  change (Z.to_nat 4) with 4%nat. change (length magic) with 8%nat.
  change (fpos (at_pos 10 (at_pos 8 initial))) with 10%nat. lia.
Qed.

Lemma truncated_key_length_witness :
  ∃ w, @ncmdump toy_library (magic ++ [1; 112; 32; 0]) =
         Some (Raise StructError, w) ∧
       trace w = [] ∧ sink w = None.
Proof. apply (@truncated_key_length toy_library [1; 112; 32; 0]). simpl. lia. Defined.

(** X10. For every well-formed container whose header phase succeeds, the
    decoder writes bytes, and as many as follow the cover-image-size
    field: the output is 31 + K + M bytes shorter than the file. *)
Theorem output_size `{Library} (x : container) box format w :
  well_formed x →
  ncmdump_header (encode x) initial = (Ok (box, format), w) →
  ∃ w' out, ncmdump (encode x) = Some (Ok format, w') ∧
    sink w' = Some out ∧ is_bytes out ∧
    (length out + (31 + length (key_blob x) + length (meta_blob x))
     = length (encode x))%nat.
Proof.
  intros Hwf Hh.
  destruct (ncmdump_encode x box format w Hwf Hh) as (w' & Hrun & Hsink).
  apply ncmdump_header_box, perm_range_bytes in Hh as [Hlen Hbox].
  exists w', (decrypt_continuous box (payload x)).
  split_and!; [done..| |].
  - apply is_bytes_decrypt_continuous; [done..|apply Hwf].
  - rewrite length_decrypt_continuous, length_encode.
    destruct Hwf as (-> & _ & _ & -> & -> & -> & _). lia.
Qed.

Lemma output_size_witness :
  ∃ w' out,
    @ncmdump toy_library (encode (toy_container [1; 2; 3]))
      = Some (Ok [109; 112; 51], w') ∧
    sink w' = Some out ∧ is_bytes out ∧
    (length out + (31 + length toy_key_blob + length toy_meta_blob))%nat
    = length (encode (toy_container [1; 2; 3])).
Proof.
  assert (is_bytes [1; 2; 3]) as Hs
    by (repeat constructor; unfold is_byte; lia).
  exact (output_size (toy_container [1; 2; 3]) toy_box [109; 112; 51]
           toy_world (toy_well_formed _ Hs) (toy_header _ Hs)).
Defined.

(** X11. The reserved bytes are skipped, not read: two well-formed
    containers that differ only in the 2 reserved bytes after the magic
    and the 5 reserved bytes after the CRC32 field decode alike. *)
Theorem reserved_ignored `{Library} (x : container) (v2 v5 : bytes) :
  well_formed x → length v2 = 2%nat → length v5 = 5%nat →
  ncmdump (encode (with_reserved v2 v5 x)) = ncmdump (encode x).
Proof.
  intros Hwf Hv2 Hv5.
  assert (well_formed (with_reserved v2 v5 x)) as Hwf'.
  { destruct Hwf as (? & ? & ? & ? & ? & ? & ?). by repeat split. }
  assert (length (encode (with_reserved v2 v5 x)) = length (encode x))
    as Hlen.
  { rewrite !length_encode. simpl.
    destruct Hwf as (-> & _ & _ & _ & -> & _). lia. }
  unfold ncmdump. rewrite !ncmdump_header_encode by done.
  change (header_result (with_reserved v2 v5 x)) with (header_result x).
  destruct (header_result x) as [[[box format]|e] w] eqn:Hres; [|done].
  apply header_result_Ok in Hres as [Hpos _].
  rewrite Hlen.
  rewrite (dump_loop_ext _ (encode (with_reserved v2 v5 x)) (encode x));
    [done|].
  cbn [m_open snd fpos]. rewrite Hpos.
  rewrite (drop_encode x) by done.
  exact (drop_encode (with_reserved v2 v5 x) Hwf').
Qed.

Lemma reserved_ignored_witness :
  @ncmdump toy_library
     (encode (with_reserved [0; 0] [9; 9; 9; 9; 9] (toy_container [1; 2; 3])))
  = @ncmdump toy_library (encode (toy_container [1; 2; 3])).
Proof.
  apply (reserved_ignored (toy_container [1; 2; 3]) [0; 0] [9; 9; 9; 9; 9]).
  - apply toy_well_formed. repeat constructor; unfold is_byte; lia.
  - reflexivity.
  - reflexivity.
Defined.

(** ** The cipher work of a decode *)

Lemma run_emit e w : emit e w = (Ok tt, extend [e] w).
Proof. done. Qed.





(** ** One call of [ncmdump] *)

Lemma endswith_app stem suffix : endswith (stem ++ suffix) suffix = true.
Proof.
  unfold endswith. apply bool_decide_eq_true_2. by apply suffix_app_r.
Qed.

(** [(stem + '.ncm')[:-4]] is [stem]. *)
Lemma slice_stem {A : Type} (stem ext : list A) :
  length ext = 4%nat → slice (stem ++ ext) 0 (-4) = stem.
Proof.
  intros Hext. unfold slice. cbv zeta.
  assert (clamp (Z.of_nat (length (stem ++ ext))) 0 = 0%nat) as ->
    by (unfold clamp; case_bool_decide; lia).
  assert (clamp (Z.of_nat (length (stem ++ ext))) (-4) = length stem) as ->.
  { unfold clamp. rewrite bool_decide_eq_true_2 by lia.
    rewrite length_app, Hext. lia. }
  by rewrite drop_0, Nat.sub_0_r, take_app_length.
Qed.

(** X13. [ncmdump] returns [None] without opening its input when the base
    name does not end in ['.ncm'] (the test is case-sensitive), and when
    the base name is [stem + '.ncm'] and [stem + '.mp3'] or
    [stem + '.flac'] is a file of the target folder, whatever format the
    container holds. *)
Theorem ncmdump_path_skips `{Library} `{Os} (filepath target_folder stem : str) :
  endswith (basename filepath) (lit ".ncm") = false ∨
  (basename filepath = stem ++ lit ".ncm" ∧
   (isfile (join target_folder (stem ++ lit "." ++ lit "mp3")) = true ∨
    isfile (join target_folder (stem ++ lit "." ++ lit "flac")) = true)) →
  ncmdump_path filepath target_folder = Some (Done Skipped).
Proof.
  unfold ncmdump_path. cbv zeta. intros [Hext|[Hname Hfile]].
  - by rewrite Hext.
  - rewrite Hname, endswith_app, slice_stem by done.
    cbn [negb existing_output].
    destruct (isfile (join target_folder (stem ++ lit "." ++ lit "mp3")));
      [done|].
    destruct Hfile as [? | ->]; done.
Qed.

Lemma ncmdump_path_skips_witness :
  @ncmdump_path toy_library toy_os (lit "a.NCM") (lit "out")
  = Some (Done Skipped).
Proof.
  apply (@ncmdump_path_skips toy_library toy_os _ _ []).
  left. vm_compute. reflexivity.
Defined.

(** X14. A call on a path whose base name is [stem + '.ncm'], with no
    [stem + '.mp3'] and no [stem + '.flac'] in the target folder, on a
    well-formed container whose header phase yields the format [format],
    writes the transform of the payload to [stem + '.' + format] in the
    target folder and returns that name; whether that file existed is not
    looked at, only the two names above are. *)
Theorem ncmdump_path_converts `{Library} `{Os}
    (filepath target_folder stem : str) (x : container) box format w :
  basename filepath = stem ++ lit ".ncm" →
  isfile (join target_folder (stem ++ lit "." ++ lit "mp3")) = false →
  isfile (join target_folder (stem ++ lit "." ++ lit "flac")) = false →
  read_rb filepath = Done (encode x) → well_formed x →
  ncmdump_header (encode x) initial = (Ok (box, format), w) →
  create_wb (join target_folder (stem ++ lit "." ++ format)) = Done tt →
  ncmdump_path filepath target_folder =
    Some (Done (Converted (join target_folder (stem ++ lit "." ++ format))
                          (decrypt_continuous box (payload x)))).
Proof.
  intros Hname Hmp3 Hflac Hread Hwf Hh Hcreate.
  unfold ncmdump_path. cbv zeta.
  rewrite Hname, endswith_app, slice_stem by done.
  cbn [negb existing_output].
  rewrite Hmp3, Hflac, Hread, Hh, Hcreate.
  destruct (ncmdump_encode x box format w Hwf Hh) as (w' & Hrun & Hsink).
  unfold ncmdump in Hrun. rewrite Hh in Hrun.
  destruct (dump_loop _ _ _ _) as [[[[]|e] w'']|]; simplify_eq.
  by rewrite Hsink.
Qed.

Lemma ncmdump_path_converts_witness :
  @ncmdump_path toy_library toy_os (lit "a.ncm") (lit "out") =
    Some (Done (Converted (lit "out/a.mp3")
                          (decrypt_continuous toy_box [1; 2; 3]))).
Proof.
  assert (is_bytes [1; 2; 3]) as Hs
    by (repeat constructor; unfold is_byte; lia).
  exact (@ncmdump_path_converts toy_library toy_os
           (lit "a.ncm") (lit "out") (lit "a") (toy_container [1; 2; 3])
           toy_box [109; 112; 51] toy_world
           eq_refl eq_refl eq_refl eq_refl
           (toy_well_formed _ Hs) (toy_header _ Hs) eq_refl).
Defined.

(** ** [process_song_mp] *)



(** ** The song library *)

Lemma Done_bind {A B : Type} (a : A) (f : A → Res B) : Done a ≫= f = f a.
Proof. done. Qed.

Lemma bind_Done {A B : Type} (r : Res A) (f : A → Res B) (b : B) :
  r ≫= f = Done b → ∃ a, r = Done a ∧ f a = Done b.
Proof. destruct r as [a|e]; simpl; [eauto | discriminate]. Qed.

Lemma for_res_app {A T : Type} (body : T → A → Res T) xs ys s :
  for_res body (xs ++ ys) s = s' ← for_res body xs s; for_res body ys s'.
Proof.
  revert s. induction xs as [|x xs IH]; intros s; simpl; [done|].
  destruct (body s x) as [s1|e]; simpl; [apply IH | done].
Qed.

Section SongLibraryFacts.
Context `{Os}.

(** The two nested loops are one loop over the files walked. *)
Lemma get_music_dict_walked folder :
  get_music_dict folder =
    for_res (λ d rf, scan_file rf.1 d rf.2) (walked folder) ∅.
Proof.
  unfold get_music_dict, walked. generalize (∅ : gmap (list Z) info).
  induction (walk folder) as [|[root files] dirs IH]; intros d; [done|].
  cbn [for_res mbind list_bind]. rewrite for_res_app.
  assert (∀ d', for_res (scan_file root) files d' =
                for_res (λ d rf, scan_file rf.1 d rf.2)
                        ((λ f, (root, f)) <$> files) d') as Hinner.
  { induction files as [|f files IHf]; intros d'; [done|]. simpl.
    destruct (scan_file root d' f); simpl; [apply IHf | done]. }
  rewrite Hinner.
  destruct (for_res _ ((λ f, (root, f)) <$> files) d) as [d1|e]; simpl;
    [apply IH | done].
Qed.

Lemma scan_file_Done root d f d' :
  scan_file root d f = Done d' →
  (is_music f ∧ ∃ sz, getsize (join root f) = Done sz ∧
     d' = <[(splitext f).1 := {| size := sz; path := join root f |}]> d) ∨
  (¬ is_music f ∧ d' = d).
Proof.
  unfold scan_file, is_music. destruct (splitext f) as [name ext]. simpl.
  case_bool_decide as Hm.
  - intros (sz & Hsz & [= <-])%bind_Done. left. eauto.
  - intros [= <-]. by right.
Qed.

(** Files that are not music, or have another stem, leave the entry of
    [name] as it is. *)
Lemma scan_others cands d d' name :
  for_res (λ d rf, scan_file rf.1 d rf.2) cands d = Done d' →
  (∀ rf, rf ∈ cands → is_music rf.2 → (splitext rf.2).1 ≠ name) →
  d' !! name = d !! name.
Proof.
  revert d. induction cands as [|[root f] cands IH]; intros d Hrun Hno.
  - by injection Hrun as <-.
  - simpl in Hrun. apply bind_Done in Hrun as (d1 & Hstep & Hrun).
    rewrite (IH d1 Hrun) by (intros rf Hin; apply Hno; by right).
    apply scan_file_Done in Hstep as [(Hm & sz & _ & ->)|[_ ->]]; [|done].
    apply lookup_insert_ne. by apply (Hno (root, f)); [left|].
Qed.

(** Every key comes from a music file that was walked. *)
Lemma scan_dom cands d d' name :
  for_res (λ d rf, scan_file rf.1 d rf.2) cands d = Done d' →
  is_Some (d' !! name) →
  is_Some (d !! name) ∨
  ∃ rf, rf ∈ cands ∧ is_music rf.2 ∧ (splitext rf.2).1 = name.
Proof.
  intros Hrun Hin.
  destruct (decide (Exists (λ rf, is_music rf.2 ∧ (splitext rf.2).1 = name)
                           cands)) as [Hex|Hno].
  - right. apply Exists_exists in Hex as (rf & ? & ? & ?). eauto.
  - left. rewrite <-(scan_others cands d d' name); [done..|].
    intros rf Hrf Hm Hname. apply Hno, Exists_exists. eauto.
Qed.

(** X16. Later files win: when [get_music_dict] returns, a music file
    (one whose lower-cased extension is ['.mp3'], ['.flac'] or ['.ncm'])
    that no later music file of the walk shares its stem with is the entry
    of its stem, with its size and the path [join(root, f)]; so of
    [a.ncm] and [a.mp3] in one library only the one walked last is kept. *)
Theorem get_music_dict_last_wins (folder : str) (d : gmap (list Z) info)
    (before after : list (list Z * list Z)) (root f : str) :
  get_music_dict folder = Done d →
  walked folder = before ++ (root, f) :: after →
  is_music f →
  (∀ rf, rf ∈ after → is_music rf.2 → (splitext rf.2).1 ≠ (splitext f).1) →
  ∃ sz, getsize (join root f) = Done sz ∧
        d !! (splitext f).1 = Some {| size := sz; path := join root f |}.
Proof.
  intros Hrun Hwalk Hm Hlast.
  rewrite get_music_dict_walked, Hwalk, for_res_app in Hrun.
  apply bind_Done in Hrun as (d1 & _ & Hrun). simpl in Hrun.
  apply bind_Done in Hrun as (d2 & Hstep & Hrun).
  apply scan_file_Done in Hstep as [(_ & sz & Hsz & ->)|[? _]]; [|done].
  exists sz. split; [done|].
  rewrite (scan_others after _ d _ Hrun Hlast). apply lookup_insert_eq.
Qed.

(** X17. When [get_music_dict] returns, its keys are exactly the stems of
    the music files walked: a name is a key if and only if some file [f]
    of the walk has that stem and a lower-cased extension among
    ['.mp3'], ['.flac'], ['.ncm']; and every entry holds the path
    [join(root, f)] of such a file and its size. *)
Theorem get_music_dict_keys (folder : str) (d : gmap (list Z) info)
    (name : str) :
  get_music_dict folder = Done d →
  (is_Some (d !! name) ↔
   ∃ rf, rf ∈ walked folder ∧ is_music rf.2 ∧ (splitext rf.2).1 = name) ∧
  (∀ i, d !! name = Some i →
     ∃ rf, rf ∈ walked folder ∧ is_music rf.2 ∧ (splitext rf.2).1 = name ∧
           path i = join rf.1 rf.2 ∧ getsize (path i) = Done (size i)).
Proof.
  intros Hrun.
  assert (∀ rf, rf ∈ walked folder → is_music rf.2 →
            (splitext rf.2).1 = name →
            ∃ before root f after,
              walked folder = before ++ (root, f) :: after ∧
              is_music f ∧ (splitext f).1 = name ∧
              ∀ rf', rf' ∈ after → is_music rf'.2 →
                     (splitext rf'.2).1 ≠ (splitext f).1) as Hsplit.
  { generalize (walked folder). intros l. induction l as [|[r0 f0] l IH].
    { intros rf Hin. by apply elem_of_nil in Hin. }
    intros rf Hin Hm Hname.
    destruct (decide (Exists (λ rf', is_music rf'.2 ∧
                                     (splitext rf'.2).1 = name) l))
      as [Hex|Hno].
    - apply Exists_exists in Hex as (rf' & Hin' & Hm' & Hname').
      destruct (IH rf' Hin' Hm' Hname')
        as (before & root & f & after & -> & ? & ? & ?).
      by exists ((r0, f0) :: before), root, f, after.
    - apply elem_of_cons in Hin as [->|Hin].
      + exists [], r0, f0, l. split_and!; [done..|].
        intros rf' Hin' Hm' Hname'. apply Hno, Exists_exists.
        exists rf'. simpl in *. split; [done|]. split; [done|congruence].
      + exfalso. apply Hno, Exists_exists. eauto. }
  assert (∀ rf, rf ∈ walked folder → is_music rf.2 →
            (splitext rf.2).1 = name →
            ∃ rf' sz, rf' ∈ walked folder ∧ is_music rf'.2 ∧
              (splitext rf'.2).1 = name ∧
              getsize (join rf'.1 rf'.2) = Done sz ∧
              d !! name = Some {| size := sz; path := join rf'.1 rf'.2 |})
    as Hfound.
  { intros rf Hin Hm Hname.
    destruct (Hsplit rf Hin Hm Hname)
      as (before & root & f & after & Hwalk & Hmf & Hnf & Hlast).
    destruct (get_music_dict_last_wins folder d before after root f)
      as (sz & Hsz & Hd); [done..|].
    exists (root, f), sz. rewrite <-Hnf. split_and!; [|done..].
    rewrite Hwalk. apply elem_of_app. right. by left. }
  assert (is_Some (d !! name) →
          ∃ rf, rf ∈ walked folder ∧ is_music rf.2 ∧ (splitext rf.2).1 = name)
    as Hdom.
  { intros Hin. rewrite get_music_dict_walked in Hrun.
    destruct (scan_dom _ _ _ name Hrun Hin) as [[? Hempty]|?]; [|done].
    by rewrite lookup_empty in Hempty. }
  split.
  - split; [exact Hdom|].
    intros (rf & Hin & Hm & Hname).
    destruct (Hfound rf Hin Hm Hname) as (? & ? & _ & _ & _ & _ & ->). eauto.
  - intros i Hi. destruct Hdom as (rf & Hin & Hm & Hname); [by eexists|].
    destruct (Hfound rf Hin Hm Hname)
      as (rf' & sz & Hin' & Hm' & Hname' & Hsz & Hd).
    rewrite Hd in Hi. injection Hi as <-. by exists rf'.
Qed.
End SongLibraryFacts.

Lemma toy_music_dict :
  @get_music_dict toy_os (lit "lib") =
    Done {[ lit "a" := {| size := 10; path := lit "lib/a.mp3" |} ]}.
Proof.
  unfold get_music_dict. cbn [walk toy_os for_res].
  unfold scan_file. cbn [splitext toy_os].
  vm_compute. reflexivity.
Qed.

Lemma toy_is_music_mp3 : @is_music toy_os (lit "a.mp3").
Proof. apply (bool_decide_unpack _). vm_compute. exact I. Qed.

Lemma get_music_dict_last_wins_witness :
  ∃ sz, @getsize toy_os (@join toy_os (lit "lib") (lit "a.mp3")) = Done sz ∧
        ({[ lit "a" := {| size := 10; path := lit "lib/a.mp3" |} ]}
           : gmap (list Z) info) !! (@splitext toy_os (lit "a.mp3")).1
        = Some {| size := sz; path := @join toy_os (lit "lib") (lit "a.mp3") |}.
Proof.
  apply (@get_music_dict_last_wins toy_os (lit "lib") _
           [(lit "lib", lit "a.ncm"); (lit "lib", lit "b.txt")] []
           (lit "lib") (lit "a.mp3")).
  - apply toy_music_dict.
  - reflexivity.
  - apply toy_is_music_mp3.
  - intros rf Hin. by apply elem_of_nil in Hin.
Defined.

Lemma get_music_dict_keys_witness :
  is_Some (({[ lit "a" := {| size := 10; path := lit "lib/a.mp3" |} ]}
              : gmap (list Z) info) !! lit "a") ↔
  ∃ rf, rf ∈ @walked toy_os (lit "lib") ∧ @is_music toy_os rf.2 ∧
        (@splitext toy_os rf.2).1 = lit "a".
Proof.
  apply (@get_music_dict_keys toy_os (lit "lib") _ (lit "a")).
  apply toy_music_dict.
Defined.

(** ** The songs to add *)

Section Selection.
Context `{Os}.

Lemma select_step_Done wf_dict sf_dict keys name keys' :
  select_step wf_dict sf_dict keys name = Done keys' →
  (keys' = keys ∧
   ∀ i1 i2, wf_dict !! name = Some i1 → sf_dict !! name = Some i2 →
            close_sizes i1 i2 = false) ∨
  (keys' = (keys.1 ∖ {[name]}, keys.2 ∖ {[name]}) ∧
   ∃ i1 i2, wf_dict !! name = Some i1 ∧ sf_dict !! name = Some i2 ∧
            close_sizes i1 i2 = true).
Proof.
  unfold select_step. destruct (sf_dict !! name) as [i2|]; [|].
  - destruct (wf_dict !! name) as [i1|]; [|discriminate]. simpl.
    unfold sizes_close. case_bool_decide; [discriminate|]. simpl.
    fold (close_sizes i1 i2).
    destruct (close_sizes i1 i2) eqn:Hclose; intros [= <-].
    + right. split; [done|]. by exists i1, i2.
    + left. split; [done|]. intros ?? [= <-] [= <-]. done.
  - intros [= <-]. left. split; [done|]. intros ?? _ [=].
Qed.

(** What the loop leaves of [wf_keys]: the names it did not find close in
    size to their namesake of the destination. *)
Lemma select_keys wf_dict sf_dict order keys keys' name :
  for_res (select_step wf_dict sf_dict) order keys = Done keys' →
  name ∈ keys'.1 ↔
  name ∈ keys.1 ∧
  ¬ (name ∈ order ∧
     ∃ i1 i2, wf_dict !! name = Some i1 ∧ sf_dict !! name = Some i2 ∧
              close_sizes i1 i2 = true).
Proof.
  revert keys. induction order as [|x order IH]; intros keys Hrun.
  - injection Hrun as <-. rewrite elem_of_nil. tauto.
  - simpl in Hrun. apply bind_Done in Hrun as (keys1 & Hstep & Hrun).
    rewrite (IH keys1 Hrun), elem_of_cons.
    apply select_step_Done in Hstep
      as [[-> Hfar]|(-> & i1 & i2 & H1 & H2 & Hclose)].
    + split.
      * intros [Hin Hno]. split; [done|].
        intros [[->|Hin'] (j1 & j2 & Hj1 & Hj2 & Hc)].
        -- by rewrite (Hfar j1 j2) in Hc.
        -- apply Hno. eauto 10.
      * intros [Hin Hno]. split; [done|]. intros [? ?]. apply Hno. eauto.
    + simpl. rewrite elem_of_difference, elem_of_singleton. split.
      * intros [[Hin Hne] Hno]. split; [done|].
        intros [[->|Hin'] ?]; [done|]. apply Hno. eauto.
      * intros [Hin Hno]. split; [split; [done|]|].
        -- intros ->. apply Hno. split; [by left|]. by exists i1, i2.
        -- intros [? ?]. apply Hno. eauto.
Qed.

(** X18. The names [main] goes on to add are the names of the source
    library that have no namesake in the destination, or one whose size
    is not within the 3% of line 169: a new song is always added, and a
    song is left out only for a namesake close in size. *)
Theorem songs_to_add_spec (order : list (list Z))
    (wf_dict sf_dict : gmap (list Z) info) (to_add : gset (list Z))
    (name : str) :
  (∀ n, n ∈ order ↔ is_Some (wf_dict !! n)) →
  songs_to_add order wf_dict sf_dict = Done to_add →
  name ∈ to_add ↔
  ∃ i1, wf_dict !! name = Some i1 ∧
        ∀ i2, sf_dict !! name = Some i2 → close_sizes i1 i2 = false.
Proof.
  intros Horder Hrun. unfold songs_to_add in Hrun.
  apply bind_Done in Hrun as (keys & Hrun & [= <-]).
  rewrite (select_keys _ _ _ _ _ name Hrun). simpl.
  rewrite elem_of_dom, Horder. split.
  - intros [[i1 Hi1] Hno]. exists i1. split; [done|].
    intros i2 Hi2. destruct (close_sizes i1 i2) eqn:Hc; [|done].
    exfalso. apply Hno. split; [by eexists|]. by exists i1, i2.
  - intros (i1 & Hi1 & Hfar). split; [by eexists|].
    intros [_ (j1 & j2 & Hj1 & Hj2 & Hc)].
    rewrite Hi1 in Hj1. injection Hj1 as <-. by rewrite (Hfar j2) in Hc.
Qed.

Lemma select_step_Fail wf_dict sf_dict keys name e :
  is_Some (wf_dict !! name) →
  select_step wf_dict sf_dict keys name = Fail e →
  e = ZeroDivisionError ∧
  ∃ i1 i2, wf_dict !! name = Some i1 ∧ sf_dict !! name = Some i2 ∧
           Z.max (size i1) (size i2) = 0.
Proof.
  intros [i1 Hi1]. unfold select_step. rewrite Hi1.
  destruct (sf_dict !! name) as [i2|]; [|discriminate]. simpl.
  unfold sizes_close. case_bool_decide as Hz.
  - intros [= <-]. split; [done|]. by exists i1, i2.
  - simpl. by destruct (ratio_below _ _).
Qed.

Lemma select_step_zero wf_dict sf_dict keys name i1 i2 :
  wf_dict !! name = Some i1 → sf_dict !! name = Some i2 →
  Z.max (size i1) (size i2) = 0 →
  select_step wf_dict sf_dict keys name = Fail ZeroDivisionError.
Proof.
  intros H1 H2 Hz. unfold select_step. rewrite H1, H2. simpl.
  unfold sizes_close. by rewrite bool_decide_eq_true_2.
Qed.

(** X19. The selection of [main] raises only [ZeroDivisionError], and it
    does so exactly when some name is in both libraries with both sizes
    0 (the larger size is 0): two empty files of the same name stop the
    program at line 169. *)
Theorem songs_to_add_zero_division (order : list (list Z))
    (wf_dict sf_dict : gmap (list Z) info) :
  (∀ n, n ∈ order ↔ is_Some (wf_dict !! n)) →
  (∀ e, songs_to_add order wf_dict sf_dict = Fail e → e = ZeroDivisionError) ∧
  (songs_to_add order wf_dict sf_dict = Fail ZeroDivisionError ↔
   ∃ name i1 i2, wf_dict !! name = Some i1 ∧ sf_dict !! name = Some i2 ∧
                 Z.max (size i1) (size i2) = 0).
Proof.
  intros Horder.
  assert (∀ l keys e,
    (∀ n, n ∈ l → is_Some (wf_dict !! n)) →
    for_res (select_step wf_dict sf_dict) l keys = Fail e →
    e = ZeroDivisionError ∧
    ∃ name i1 i2, wf_dict !! name = Some i1 ∧ sf_dict !! name = Some i2 ∧
                  Z.max (size i1) (size i2) = 0) as Hfail.
  { induction l as [|x l IH]; intros keys e Hl Hrun; [discriminate|].
    simpl in Hrun.
    destruct (select_step wf_dict sf_dict keys x) as [keys1|e1] eqn:Hstep.
    - apply (IH keys1 e); [|done]. intros n Hn. apply Hl. by right.
    - injection Hrun as <-.
      apply select_step_Fail in Hstep as [-> (i1 & i2 & ?)]; [|apply Hl; by left].
      split; [done|]. by exists x, i1, i2. }
  assert (∀ l keys name i1 i2,
    name ∈ l → wf_dict !! name = Some i1 → sf_dict !! name = Some i2 →
    Z.max (size i1) (size i2) = 0 →
    ∃ e, for_res (select_step wf_dict sf_dict) l keys = Fail e) as Hzero.
  { induction l as [|x l IH]; intros keys name i1 i2 Hin H1 H2 Hz.
    { by apply elem_of_nil in Hin. }
    simpl.
    destruct (select_step wf_dict sf_dict keys x) as [keys1|e1] eqn:Hstep;
      [|by eexists].
    apply elem_of_cons in Hin as [->|Hin]; [|by eapply IH].
    by rewrite (select_step_zero _ _ _ _ i1 i2) in Hstep. }
  assert (∀ e, songs_to_add order wf_dict sf_dict = Fail e →
               for_res (select_step wf_dict sf_dict) order
                       (dom wf_dict, dom sf_dict) = Fail e) as Hbind.
  { intros e. unfold songs_to_add.
    destruct (for_res _ _ _) as [k|e']; unfold mbind, Res_bind;
      [intros [=]|by intros [= ->]]. }
  split; [|split].
  - intros e He. apply Hbind in He.
    by apply Hfail in He as [-> _]; [|intros n; apply Horder].
  - intros He. apply Hbind in He.
    by apply Hfail in He as [_ ?]; [|intros n; apply Horder].
  - intros (name & i1 & i2 & H1 & H2 & Hz).
    destruct (Hzero order (dom wf_dict, dom sf_dict) name i1 i2)
      as [e He]; [by apply Horder; eexists|done..|].
    pose proof He as He'.
    apply Hfail in He' as [-> _]; [|intros n; apply Horder].
    unfold songs_to_add. by rewrite He.
Qed.
End Selection.

Lemma toy_order (i : info) n :
  n ∈ [lit "a"] ↔ is_Some (({[ lit "a" := i ]} : gmap (list Z) info) !! n).
Proof.
  rewrite list_elem_of_singleton. split.
  - intros ->. rewrite lookup_singleton_eq. by eexists.
  - intros [j Hj]. by apply lookup_singleton_Some in Hj as [<- _].
Qed.

Lemma songs_to_add_spec_witness :
  lit "a" ∈ ({[ lit "a" ]} : gset (list Z)) ↔
  ∃ i1, ({[ lit "a" := {| size := 100; path := lit "x" |} ]}
           : gmap (list Z) info) !! lit "a" = Some i1 ∧
        ∀ i2, ({[ lit "a" := {| size := 50; path := lit "y" |} ]}
                 : gmap (list Z) info) !! lit "a" = Some i2 →
              @close_sizes toy_os i1 i2 = false.
Proof.
  apply (@songs_to_add_spec toy_os [lit "a"]).
  - apply toy_order.
  - vm_compute. reflexivity.
Defined.

Lemma songs_to_add_zero_division_witness :
  @songs_to_add toy_os [lit "a"]
     {[ lit "a" := {| size := 0; path := lit "x" |} ]}
     {[ lit "a" := {| size := 0; path := lit "y" |} ]}
  = Fail ZeroDivisionError.
Proof.
  apply (@songs_to_add_zero_division toy_os [lit "a"]).
  - apply toy_order.
  - exists (lit "a"), {| size := 0; path := lit "x" |},
           {| size := 0; path := lit "y" |}.
    split_and!; [apply lookup_singleton_eq..|reflexivity].
Defined.
